(** * subnet-cli: the polling primitive of [internal/poll/poll.go]

    A shallow embedding of [poller.Poll] and of the Go runtime objects it
    touches (contexts, the ticker, the monotonic clock, the global logger),
    followed by the properties of its cancellation and timing behaviour.

    Time is the monotonic clock in nanoseconds.  Everything the goroutine
    cannot control is gathered in an environment [Env]: what each call of
    [check] returns and how long it runs, how long the scheduler delays the
    goroutine before each program point, which ready case a [select] picks,
    and whether the runtime leaves a tick in the ticker's channel when the
    ticker is reset.  Every theorem quantifies over the environment unless it
    says otherwise. *)

From Stdlib Require Import ZArith NArith List String Bool Lia.
Import ListNotations.
Local Open Scope Z_scope.

Module poll.

(** ** Errors, durations, the clock *)

(** [error] values that can reach [Poll]: its own sentinel [ErrAborted]
    (poll.go:15), the two errors of package [context], and any other error a
    predicate or a custom context may produce. *)
Inductive error : Type :=
| ErrAborted
| Canceled
| DeadlineExceeded
| ErrOther (msg : string).

Definition error_eq_dec (a b : error) : {a = b} + {a <> b}.
Proof. decide equality; apply string_dec. Defined.

(** [time.Duration] is an int64 count of nanoseconds. *)
Definition Duration := Z.
(** A reading of the monotonic clock, in nanoseconds. *)
Definition Time := Z.

Definition minDuration : Duration := - 2 ^ 63.
Definition maxDuration : Duration := 2 ^ 63 - 1.

(** [time.Since(start)] evaluated when the clock reads [t]: the difference,
    saturated to the int64 range as [Time.Sub] does. *)
Definition Since (start t : Time) : Duration :=
  Z.max minDuration (Z.min maxDuration (t - start)).

(** ** Contexts *)

(** A [context.Context] as [Poll] uses it: it fires (is cancelled or reaches
    its deadline) at most once, at [fires_at], and from then on [Err] returns
    the same non-nil error and [Done] is closed.  The contexts covered are
    the non-nil ones: [Poll] calls [Err] on both without a nil test
    (poll.go:50). *)
Record Context : Type := mkContext {
  fires_at : option Time;
  err_value : error
}.

(** [c.Err()] read at time [t]; [None] is Go's nil. *)
Definition Err (c : Context) (t : Time) : option error :=
  match fires_at c with
  | Some f => if f <=? t then Some (err_value c) else None
  | None => None
  end.

Definition is_nil (e : option error) : bool :=
  match e with None => true | Some _ => false end.

(** [c.Done()] is closed at time [t]. *)
Definition Done (c : Context) (t : Time) : bool := negb (is_nil (Err c t)).

(** [context.Background()]. *)
Definition Background : Context := mkContext None Canceled.

(** ** The ticker *)

(** A [time.Ticker] as seen through its channel [C] of capacity one: [C]
    holds a tick from time [tk_next] on.  [Poll] resets the ticker after every
    receive, so the tick it receives is the first one after a (re)start, or
    one that was already in the channel when the ticker was reset. *)
Record Ticker : Type := mkTicker {
  tk_period : Duration;
  tk_next : Time;
  tk_stopped : bool
}.

(** [time.NewTicker(d)] at time [t]; [None] is the panic on [d <= 0]. *)
Definition NewTicker (t : Time) (d : Duration) : option Ticker :=
  if d <=? 0 then None else Some (mkTicker d (t + d) false).

(** [tc.Reset(d)] at time [t]; [None] is the panic "non-positive interval for
    Ticker.Reset".  The next tick of the ticker arrives after the new period
    elapses.  [buffered] says that a tick of the period so far has been sent
    since the last receive and sits in [C]: [Reset] does not drain the
    channel (Go before 1.23), so that tick is there to be received at once. *)
Definition Reset (tk : Ticker) (t : Time) (d : Duration) (buffered : bool)
  : option Ticker :=
  if d <=? 0 then None
  else Some (mkTicker d (if buffered then t else t + d) (tk_stopped tk)).

(** [tc.Stop()]. *)
Definition Stop (tk : Ticker) : Ticker :=
  mkTicker (tk_period tk) (tk_next tk) true.

(** [tc.C] can be received from at time [t]. *)
Definition tick_ready (tk : Ticker) (t : Time) : bool := tk_next tk <=? t.

(** ** The poller *)

(** poll.go:30-33. *)
Record poller : Type := mkPoller {
  rootCtx : Context;
  interval : Duration
}.

(** poll.go:35-40: no validation of either argument. *)
Definition New (rootCtx : Context) (interval : Duration) : poller :=
  {| rootCtx := rootCtx; interval := interval |}.

(** ** The environment *)

(** One run of the predicate: its two results and how long the call took.
    The predicates covered are those whose calls return: [Poll] has no
    [recover] and no timeout of its own around [check()] (poll.go:58), so a
    call that panics takes [Poll] with it and a call that never returns keeps
    [Poll] from returning; neither is a behaviour of [Poll] itself. *)
Record CheckRun : Type := mkRun {
  cr_done : bool;
  cr_err : option error;
  cr_dur : N
}.

(** The program points of [Poll] before which the scheduler may delay the
    goroutine. *)
Inductive Point : Type :=
| AtCondRoot   (* [pl.rootCtx.Err() == nil] in the loop condition *)
| AtCondCtx    (* [ctx.Err() == nil] in the loop condition *)
| AtSelect     (* entering the [select] *)
| AtReset      (* [tc.Reset(pl.interval)] *)
| AtCheck      (* the call [check()] *)
| AtPostCtx    (* [err = ctx.Err()] after the loop *)
| AtPostRoot   (* [pl.rootCtx.Err() != nil] after the loop *)
| AtReturn.    (* [time.Since(start)] of a return statement *)

Record Env : Type := mkRuntime {
  (** the [k]-th call of [check] (counting from 0), started at time [t] *)
  check : nat -> Time -> CheckRun;
  (** delay before program point [p] in loop iteration [i] *)
  lag : Point -> nat -> N;
  (** the [select] of iteration [i] picks [<-pl.rootCtx.Done()] when both of
      its cases are ready *)
  coin : nat -> bool;
  (** in iteration [i] the ticker sends a tick between the receive from
      [tc.C] and [tc.Reset], if time passes between the two, and that tick
      stays in the channel (possible before Go 1.23; from Go 1.23 on no tick
      survives a [Reset]) *)
  stale : nat -> bool
}.

(** An environment in which no [Reset] leaves a tick behind. *)
Definition mkEnv (check : nat -> Time -> CheckRun) (lag : Point -> nat -> N)
  (coin : nat -> bool) : Env :=
  mkRuntime check lag coin (fun _ => false).

(** ** What a run leaves behind *)

(** The three log statements of [Poll] (poll.go:44, 60, 68). *)
Inductive LogEntry : Type :=
| LogStart (interval : Duration)       (* Info "start polling" *)
| LogCheckFailed (e : error)           (* Warn "poll check failed" *)
| LogConfirmed (took : Duration).      (* Info "poll confirmed" *)

Inductive Level : Type := InfoLevel | WarnLevel.

Definition level (l : LogEntry) : Level :=
  match l with
  | LogStart _ => InfoLevel
  | LogCheckFailed _ => WarnLevel
  | LogConfirmed _ => InfoLevel
  end.

Inductive Case : Type :=
| CaseRootDone   (* [case <-pl.rootCtx.Done()] *)
| CaseTick.      (* [case <-tc.C] *)

Inductive Event : Type :=
| RootErr (p : Point) (t : Time) (e : option error)  (* [pl.rootCtx.Err()] read *)
| CtxErr (p : Point) (t : Time) (e : option error)   (* [ctx.Err()] read *)
| Waiting (t : Time)                                 (* [select] entered *)
| Woke (t : Time) (c : Case)                         (* [select] proceeds with [c] *)
| TickerReset (t : Time) (d : Duration)
| Checked (k : nat) (called returned : Time) (done : bool) (err : option error)
| Logged (l : LogEntry).

(** The state of one [Poll] call.  [pl] is the receiver as it sits in memory;
    the other fields are the call's own.  [trace] is newest first. *)
Record Frame : Type := mkFrame {
  pl : poller;
  start : Time;
  now : Time;
  tc : Ticker;
  iter : nat;
  calls : nat;
  trace : list Event
}.

Definition at_time (t : Time) (f : Frame) : Frame :=
  mkFrame (pl f) (start f) t (tc f) (iter f) (calls f) (trace f).

Definition emit (e : Event) (f : Frame) : Frame :=
  mkFrame (pl f) (start f) (now f) (tc f) (iter f) (calls f) (e :: trace f).

Definition with_tc (tk : Ticker) (f : Frame) : Frame :=
  mkFrame (pl f) (start f) (now f) tk (iter f) (calls f) (trace f).

Definition next_iter (f : Frame) : Frame :=
  mkFrame (pl f) (start f) (now f) (tc f) (S (iter f)) (calls f) (trace f).

Definition called (f : Frame) : Frame :=
  mkFrame (pl f) (start f) (now f) (tc f) (iter f) (S (calls f)) (trace f).

(** The scheduler's delay before program point [p]. *)
Definition pause (w : Env) (p : Point) (f : Frame) : Frame :=
  at_time (now f + Z.of_N (lag w p (iter f))) f.

(** The events in the order they happened. *)
Definition history (f : Frame) : list Event := rev (trace f).

(** ** The select statement (poll.go:51-56) *)

(** [select] over [<-root.Done()] and [<-tk.C], entered at time [t]: the time
    at which it proceeds, and with which case.  A case that is ready on entry
    is taken at once ([coin] decides between two ready cases); otherwise the
    goroutine sleeps until the first of the two becomes ready. *)
Definition select (root : Context) (tk : Ticker) (coin : bool) (t : Time)
  : Time * Case :=
  match Done root t, tick_ready tk t with
  | true, true => (t, if coin then CaseRootDone else CaseTick)
  | true, false => (t, CaseRootDone)
  | false, true => (t, CaseTick)
  | false, false =>
      match fires_at root with
      | None => (tk_next tk, CaseTick)
      | Some r =>
          if r <? tk_next tk then (r, CaseRootDone)
          else if tk_next tk <? r then (tk_next tk, CaseTick)
          else (r, if coin then CaseRootDone else CaseTick)
      end
  end.

(** ** The loop of [Poll] (poll.go:50-70) *)

Inductive Flow : Type :=
| Continue (f : Frame)                                  (* next iteration *)
| Break (f : Frame)                                     (* loop condition false *)
| Return (took : Duration) (err : option error) (f : Frame)
| Panic (f : Frame).

Definition frame_of (fl : Flow) : Frame :=
  match fl with
  | Continue f | Break f | Return _ _ f | Panic f => f
  end.

(** poll.go:58-69: the call of [check] and what follows it. *)
Definition check_phase (w : Env) (f : Frame) : Flow :=
  let f := pause w AtCheck f in
  let k := calls f in
  let t := now f in
  let r := check w k t in
  let f := called (at_time (t + Z.of_N (cr_dur r)) f) in
  let f := emit (Checked k t (now f) (cr_done r) (cr_err r)) f in
  match cr_err r with
  | Some e =>
      (* zap.L().Warn("poll check failed", zap.Error(err)); continue *)
      Continue (next_iter (emit (Logged (LogCheckFailed e)) f))
  | None =>
      if negb (cr_done r) then Continue (next_iter f)
      else
        let f := pause w AtReturn f in
        let took := Since (start f) (now f) in
        Return took None (emit (Logged (LogConfirmed took)) f)
  end.

(** poll.go:51-56: the wait, then either the return or the ticker reset. *)
Definition wait_phase (w : Env) (f : Frame) : Flow :=
  let f := pause w AtSelect f in
  let f := emit (Waiting (now f)) f in
  let (t, c) := select (rootCtx (pl f)) (tc f) (coin w (iter f)) (now f) in
  let f := emit (Woke t c) (at_time t f) in
  match c with
  | CaseRootDone =>
      let f := pause w AtReturn f in
      Return (Since (start f) (now f)) (Some ErrAborted) f
  | CaseTick =>
      let f := pause w AtReset f in
      let buffered := stale w (iter f) && (t <? now f) in
      match Reset (tc f) (now f) (interval (pl f)) buffered with
      | None => Panic f
      | Some tk =>
          check_phase w (emit (TickerReset (now f) (interval (pl f))) (with_tc tk f))
      end
  end.

(** One pass through the [for] statement, starting at its condition
    [pl.rootCtx.Err() == nil && ctx.Err() == nil]. *)
Definition loop_iter (w : Env) (ctx : Context) (f : Frame) : Flow :=
  let f := pause w AtCondRoot f in
  let r := Err (rootCtx (pl f)) (now f) in
  let f := emit (RootErr AtCondRoot (now f) r) f in
  if negb (is_nil r) then Break f
  else
    let f := pause w AtCondCtx f in
    let c := Err ctx (now f) in
    let f := emit (CtxErr AtCondCtx (now f) c) f in
    if negb (is_nil c) then Break f
    else wait_phase w f.

(** poll.go:72-76: the statements after the loop. *)
Definition after_loop (w : Env) (ctx : Context) (f : Frame)
  : Duration * option error * Frame :=
  let f := pause w AtPostCtx f in
  let err := Err ctx (now f) in
  let f := emit (CtxErr AtPostCtx (now f) err) f in
  let f := pause w AtPostRoot f in
  let r := Err (rootCtx (pl f)) (now f) in
  let f := emit (RootErr AtPostRoot (now f) r) f in
  let err := if negb (is_nil r) then Some ErrAborted else err in
  let f := pause w AtReturn f in
  (Since (start f) (now f), err, f).

(** ** [Poll] (poll.go:42-77) *)

Inductive Outcome : Type :=
| Returned (took : Duration) (err : option error)
| Panicked
| Running.        (* the loop has not finished within the given fuel *)

Definition still_running (o : Outcome) : bool :=
  match o with Running => true | _ => false end.

(** The loop, for at most [fuel] iterations. *)
Fixpoint loop (fuel : nat) (w : Env) (ctx : Context) (f : Frame)
  : Outcome * Frame :=
  match fuel with
  | O => (Running, f)
  | S fuel' =>
      match loop_iter w ctx f with
      | Continue f' => loop fuel' w ctx f'
      | Break f' =>
          let '(took, err, f'') := after_loop w ctx f' in
          (Returned took err, f'')
      | Return took err f' => (Returned took err, f')
      | Panic f' => (Panicked, f')
      end
  end.

(** The deferred [tc.Stop()] runs when the function returns or panics. *)
Definition run_deferred (r : Outcome * Frame) : Outcome * Frame :=
  match fst r with
  | Running => r
  | _ => (fst r, with_tc (Stop (tc (snd r))) (snd r))
  end.

(** The frame with which the loop is entered: the clock read into [start],
    the first log entry written, the ticker created with period 1ns. *)
Definition enter (p : poller) (t0 : Time) (tk : Ticker) : Frame :=
  mkFrame p t0 t0 tk 0 0 [Logged (LogStart (interval p))].

(** [pl.Poll(ctx, check)] called at time [t0] in environment [w]. *)
Definition Poll (fuel : nat) (w : Env) (p : poller) (ctx : Context) (t0 : Time)
  : Outcome * Frame :=
  match NewTicker t0 1 with
  | None => (Panicked, mkFrame p t0 t0 (mkTicker 0 t0 true) 0 0 [])
  | Some tk => run_deferred (loop fuel w ctx (enter p t0 tk))
  end.

(** ** Sample environments *)

Definition no_lag : Point -> nat -> N := fun _ _ => 0%N.

(** A predicate that returns [(done, err)] after [d] ns, every time. *)
Definition always (done : bool) (err : option error) (d : N) : nat -> Time -> CheckRun :=
  fun _ _ => mkRun done err d.

(** A predicate that reports success from its [n]-th call on. *)
Definition done_from (n : nat) (d : N) : nat -> Time -> CheckRun :=
  fun k _ => mkRun (n <=? k)%nat None d.

Definition ms : Z := 1000000.

(** ** The instants of one pass of the loop

    For a frame [f] at the loop head, the clock readings at the successive
    program points of the pass that starts there (each is meaningful only if
    the pass gets that far). *)
Section Instants.
Variable w : Env.
Variable f : Frame.

Definition L (p : Point) : Z := Z.of_N (lag w p (iter f)).

Definition t_cond_root : Time := now f + L AtCondRoot.
Definition t_cond_ctx : Time := t_cond_root + L AtCondCtx.
Definition t_select : Time := t_cond_ctx + L AtSelect.
Definition the_select : Time * Case :=
  select (rootCtx (pl f)) (tc f) (coin w (iter f)) t_select.
Definition t_woke : Time := fst the_select.
Definition t_reset : Time := t_woke + L AtReset.
(** A tick is left in the channel by the [Reset] of this pass. *)
Definition tick_left : bool := stale w (iter f) && (t_woke <? t_reset).
(** From when on the channel holds a tick after the [Reset] of this pass. *)
Definition t_next_tick : Time :=
  if tick_left then t_reset else t_reset + interval (pl f).
Definition t_call : Time := t_reset + L AtCheck.
Definition the_run : CheckRun := check w (calls f) t_call.
Definition t_ret : Time := t_call + Z.of_N (cr_dur the_run).

(** The two reads after the loop, when the pass ends on a false condition
    at [t]. *)
Definition t_post_ctx (t : Time) : Time := t + L AtPostCtx.
Definition t_post_root (t : Time) : Time := t_post_ctx t + L AtPostRoot.

(** The events of a pass up to and including the wake-up, newest first. *)
Definition woke_events (c : Case) : list Event :=
  [Woke t_woke c; Waiting t_select;
   CtxErr AtCondCtx t_cond_ctx None; RootErr AtCondRoot t_cond_root None].

(** The events of a pass up to and including the call of [check]. *)
Definition checked_events : list Event :=
  Checked (calls f) t_call t_ret (cr_done the_run) (cr_err the_run)
  :: TickerReset t_reset (interval (pl f))
  :: woke_events CaseTick.
End Instants.

(** ** Reading a trace *)

(** The time carried by an event that leaves the loop other than by
    success: the [select] taking the root case, or one of the two reads of the
    loop condition finding a context fired. *)
Definition leaves_loop (e : Event) : option Time :=
  match e with
  | Woke t CaseRootDone => Some t
  | RootErr AtCondRoot t (Some _) => Some t
  | CtxErr AtCondCtx t (Some _) => Some t
  | _ => None
  end.

(** When the loop was left other than by success, if it was ([tr] is newest
    first). *)
Fixpoint loop_left_at (tr : list Event) : option Time :=
  match tr with
  | [] => None
  | e :: tr' =>
      match leaves_loop e with
      | Some t => Some t
      | None => loop_left_at tr'
      end
  end.

(** What the read of the root context after the loop (poll.go:73) found, when
    it is the last thing the call did. *)
Definition root_after_loop (tr : list Event) : option (option error) :=
  match tr with
  | RootErr AtPostRoot _ e :: _ => Some e
  | _ => None
  end.

(** A call of [check] that returned [(true, nil)]. *)
Definition succeeded (e : Event) : bool :=
  match e with
  | Checked _ _ _ true None => true
  | _ => false
  end.

Definition no_success (tr : list Event) : Prop :=
  forall e, In e tr -> succeeded e = false.

(** The same, as a test. *)
Definition no_successb (tr : list Event) : bool :=
  forallb (fun e => negb (succeeded e)) tr.

(** A failed call of [check] has been dealt with as poll.go:59-62 says when
    the events that follow it are the warning carrying its error and then the
    loop condition, evaluated again ([continue]).  A history may end on the
    warning only when it is that of a run that is still in its loop, stopped
    at the loop head ([cut]); the history of a call that has returned or
    panicked may not. *)
Definition handled_failure (cut : bool) (e : error) (after : list Event)
  : Prop :=
  match after with
  | Logged l :: after' =>
      l = LogCheckFailed e /\ level l = WarnLevel /\
      match after' with
      | [] => cut = true
      | RootErr AtCondRoot _ _ :: _ => True
      | _ :: _ => False
      end
  | _ => False
  end.

(** Every failed call in a history (oldest first) has been dealt with. *)
Fixpoint failures_handled (cut : bool) (h : list Event) : Prop :=
  match h with
  | [] => True
  | ev :: rest =>
      match ev with
      | Checked _ _ _ _ (Some e) => handled_failure cut e rest
      | _ => True
      end /\ failures_handled cut rest
  end.

(** An event in which the goroutine finds the root context fired. *)
Definition root_seen_fired (e : Event) : bool :=
  match e with
  | RootErr _ _ (Some _) => true
  | Woke _ CaseRootDone => true
  | _ => false
  end.

(** A call of [check]. *)
Definition is_check (e : Event) : bool :=
  match e with
  | Checked _ _ _ _ _ => true
  | _ => false
  end.

(** The earlier of [deadline] and the time at which [c] fires. *)
Definition fires_within (c : Context) (deadline : Time) : Time :=
  match fires_at c with
  | Some r => Z.min r deadline
  | None => deadline
  end.

(** The predicate never reports [(true, nil)]. *)
Definition never_succeeds (w : Env) : Prop :=
  forall k t, cr_done (check w k t) = true -> cr_err (check w k t) <> None.

(** The time of the most recent wake-up of the [select] in a trace. *)
Fixpoint last_woke (tr : list Event) : option Time :=
  match tr with
  | [] => None
  | Woke t _ :: _ => Some t
  | _ :: tr' => last_woke tr'
  end.

(** The wait as the specification describes it: in a pass that reaches the
    [select], the wait ends at the earliest of the next tick, the firing of
    the root context and the firing of the operation context. *)
Definition wait_ends_on_either_signal : Prop :=
  forall w ctx f,
    Err (rootCtx (pl f)) (t_cond_root w f) = None ->
    Err ctx (t_cond_ctx w f) = None ->
    last_woke (trace (frame_of (loop_iter w ctx f))) =
    Some (Z.max (t_select w f)
            (fires_within ctx (fires_within (rootCtx (pl f)) (tk_next (tc f))))).

(** ** Several calls on one poller *)

(** The arguments of one call of [Poll], with its environment. *)
Record Call : Type := mkCall {
  c_fuel : nat;
  c_env : Env;
  c_ctx : Context;
  c_t0 : Time
}.

(** Calls made one after the other on the same receiver: each call finds the
    poller as the previous one left it in memory. *)
Fixpoint poll_all (p : poller) (cs : list Call) : poller * list Outcome :=
  match cs with
  | [] => (p, [])
  | c :: cs' =>
      let r := Poll (c_fuel c) (c_env c) p (c_ctx c) (c_t0 c) in
      let rest := poll_all (pl (snd r)) cs' in
      (fst rest, fst r :: snd rest)
  end.

Definition with_pl (p : poller) (f : Frame) : Frame :=
  mkFrame p (start f) (now f) (tc f) (iter f) (calls f) (trace f).

(** One pass of a call that is still in its loop, the receiver being shared:
    the pass reads the poller from memory [mem] and what the pass leaves of it
    goes back to memory. *)
Definition pass (w : Env) (ctx : Context) (mem : poller) (fl : Flow)
  : poller * Flow :=
  match fl with
  | Continue f =>
      let fl' := loop_iter w ctx (with_pl mem f) in
      (pl (frame_of fl'), fl')
  | _ => (mem, fl)
  end.

(** A call running alone for [n] passes. *)
Fixpoint passes (n : nat) (w : Env) (ctx : Context) (mem : poller) (fl : Flow)
  : Flow :=
  match n with
  | O => fl
  | S n' => passes n' w ctx mem (snd (pass w ctx mem fl))
  end.

(** Two calls on the same poller, their passes interleaved as [sched] says
    ([true]: the first call moves). *)
Fixpoint interleave (sched : list bool)
  (w1 : Env) (ctx1 : Context) (w2 : Env) (ctx2 : Context)
  (mem : poller) (a b : Flow) : poller * Flow * Flow :=
  match sched with
  | [] => (mem, a, b)
  | true :: sched' =>
      let r := pass w1 ctx1 mem a in
      interleave sched' w1 ctx1 w2 ctx2 (fst r) (snd r) b
  | false :: sched' =>
      let r := pass w2 ctx2 mem b in
      interleave sched' w1 ctx1 w2 ctx2 (fst r) a (snd r)
  end.

(** How many turns [sched] gives to one of the two calls. *)
Definition turns (who : bool) (sched : list bool) : nat :=
  List.length (filter (Bool.eqb who) sched).

(** ** When the calls of [check] happen *)

(** The scheduler's delay before point [p] of pass [i], as a duration. *)
Definition Lag (w : Env) (p : Point) (i : nat) : Z := Z.of_N (lag w p i).

(** No scheduling delays at all. *)
Definition quiet (w : Env) : Prop := forall q i, lag w q i = 0%N.

(** When the first call starts: once the tick of the 1ns ticker created at
    [t0] has been received and the ticker reset. *)
Definition first_check_at (w : Env) (t0 : Time) : Time :=
  Z.max (t0 + 1)
        (t0 + Lag w AtCondRoot 0 + Lag w AtCondCtx 0 + Lag w AtSelect 0)
  + Lag w AtReset 0 + Lag w AtCheck 0.

(** The [Reset] of pass [k] leaves a tick in the channel: the environment
    has the ticker send one between the receive and the [Reset], and time
    does pass between the two. *)
Definition stale_after (w : Env) (k : nat) : bool :=
  stale w k && (0 <? Lag w AtReset k).

(** When call [k+1] starts, call [k] having started at [c1] and returned at
    [d1]: the ticker was reset to the interval [iv] just before call [k]
    started, so the next tick is due one interval after that reset, unless
    the reset left a tick in the channel; and the tick is received once call
    [k] is over and the loop is back at its [select]. *)
Definition next_check_at (w : Env) (iv : Duration) (k : nat) (c1 d1 : Time)
  : Time :=
  Z.max (c1 - Lag w AtCheck k + (if stale_after w k then 0 else iv))
        (d1 + Lag w AtCondRoot (S k) + Lag w AtCondCtx (S k)
            + Lag w AtSelect (S k))
  + Lag w AtReset (S k) + Lag w AtCheck (S k).

(** The first call of a trace started when [first_check_at] says. *)
Definition first_ok (w : Env) (t0 : Time) (tr : list Event) : Prop :=
  forall c d b e, In (Checked 0 c d b e) tr -> c = first_check_at w t0.

(** Consecutive calls of a trace are spaced as [next_check_at] says. *)
Definition next_ok (w : Env) (p : poller) (tr : list Event) : Prop :=
  forall k c1 d1 b1 e1 c2 d2 b2 e2,
    In (Checked k c1 d1 b1 e1) tr -> In (Checked (S k) c2 d2 b2 e2) tr ->
    c2 = next_check_at w (interval p) k c1 d1.

(** What holds of a frame at the loop head, in a call that started at [t0]:
    one call of [check] per pass so far, and the ticker and the clock as the
    last call left them. *)
Definition at_head (w : Env) (p : poller) (t0 : Time) (g : Frame) : Prop :=
  iter g = calls g /\ pl g = p /\
  (forall k c d b e, In (Checked k c d b e) (trace g) -> (k < calls g)%nat) /\
  (calls g = 0%nat -> tk_next (tc g) = t0 + 1 /\ now g = t0) /\
  (forall k c d b e, In (Checked k c d b e) (trace g) -> S k = calls g ->
     tk_next (tc g) =
       c - Lag w AtCheck k + (if stale_after w k then 0 else interval p) /\
     now g = d) /\
  first_ok w t0 (trace g) /\ next_ok w p (trace g).

(** The calls of [tr] are those of [g] and the one of the pass from [g]. *)
Definition one_more (w : Env) (g : Frame) (tr : list Event) : Prop :=
  forall k c d b e, In (Checked k c d b e) tr ->
    (k = calls g /\ c = t_call w g /\ d = t_ret w g) \/
    In (Checked k c d b e) (trace g).

(** The timing as the specification describes it, without scheduling delays:
    the first call right after the start (on the 1ns tick), every later call
    one interval after the previous call returned. *)
Definition checks_wait_after_completion : Prop :=
  forall fuel w p ctx t0,
    quiet w -> 0 < interval p ->
    (forall c d b e,
       In (Checked 0 c d b e) (trace (snd (Poll fuel w p ctx t0))) ->
       c = t0 + 1) /\
    (forall k c1 d1 b1 e1 c2 d2 b2 e2,
       In (Checked k c1 d1 b1 e1) (trace (snd (Poll fuel w p ctx t0))) ->
       In (Checked (S k) c2 d2 b2 e2) (trace (snd (Poll fuel w p ctx t0))) ->
       c2 = d1 + interval p).

(** An environment in which the goroutine is held up for 5ns between the two
    reads of the loop condition of the second iteration. *)
Definition lag_in_cond : Point -> nat -> N :=
  fun p i => match p, i with AtCondCtx, 1%nat => 5%N | _, _ => 0%N end.

(** A predicate that takes 4ns and never reports success, no scheduling
    delays, and an operation context with a deadline at 25. *)
Definition deadline_env : Env := mkEnv (always false None 4) no_lag (fun _ => false).
Definition deadline_ctx : Context := mkContext (Some 25) DeadlineExceeded.

(** A predicate that succeeds at once but takes 8ns, while both contexts
    fire. *)
Definition late_env : Env := mkEnv (always true None 8) no_lag (fun _ => false).
Definition late_poller : poller := New (mkContext (Some 3) Canceled) 10.
Definition late_ctx : Context := mkContext (Some 5) DeadlineExceeded.

(** A predicate that fails at once, every time. *)
Definition failing_env : Env :=
  mkEnv (always false (Some (ErrOther "unavailable")) 0) no_lag (fun _ => false).

(** A predicate that takes 4ns and reports success from its hundredth call
    on. *)
Definition patient_env : Env := mkEnv (done_from 100 4) no_lag (fun _ => false).

(** A predicate that takes 4ns and never reports success, every [Reset]
    coming 2ns after the receive and leaving a tick in the channel. *)
Definition hasty_env : Env :=
  mkRuntime (always false None 4)
            (fun q _ => match q with AtReset => 2%N | _ => 0%N end)
            (fun _ => false) (fun _ => true).

(** A predicate that returns [(false, nil)] at once. *)
Definition idle_env : Env := mkEnv (always false None 0) no_lag (fun _ => false).

(** A predicate that takes 8ns and a root context that fires at 3. *)
Definition slow_env : Env := mkEnv (always false None 8) no_lag (fun _ => false).
Definition early_root : poller := New (mkContext (Some 3) Canceled) 10.

(** The goroutine is held up for 12ns before every [select]; a [select] with
    two ready cases picks the tick. *)
Definition held_env : Env :=
  mkEnv (always false None 0)
        (fun q _ => match q with AtSelect => 12%N | _ => 0%N end)
        (fun _ => false).

(** A call at the head of its second pass: the first call of [check] is over
    at 1, the next tick is due at 11. *)
Definition second_pass (p : poller) : Frame :=
  mkFrame p 0 1 (mkTicker (interval p) 11 false) 1 1 [].

Definition race_env : Env := mkEnv (always false None 0) lag_in_cond (fun _ => false).
Definition race_poller : poller := New (mkContext (Some 4) Canceled) 10.
Definition race_ctx : Context := mkContext (Some 3) DeadlineExceeded.

(** ** Further readings of a run *)

(** [time.Second], the default of the flag [--poll-interval] from which the
    command line builds its poller (cmd/root.go:55). *)
Definition Second : Duration := 1000000000.

(** The numbers of the calls of [check] in a history, in order. *)
Definition check_indices (h : list Event) : list nat :=
  flat_map (fun e => match e with Checked k _ _ _ _ => [k] | _ => [] end) h.

(** A log entry at warning level. *)
Definition is_warning (e : Event) : bool :=
  match e with
  | Logged l => match level l with WarnLevel => true | InfoLevel => false end
  | _ => false
  end.

(** A call of [check] that returned a non-nil error. *)
Definition is_failure (e : Event) : bool :=
  match e with
  | Checked _ _ _ _ (Some _) => true
  | _ => false
  end.

(** Neither the root context nor the operation context ever fires. *)
Definition never_cancelled (p : poller) (ctx : Context) : Prop :=
  fires_at (rootCtx p) = None /\ fires_at ctx = None.

(** The run of [check] reports [(true, nil)]. *)
Definition reports_success (r : CheckRun) : bool :=
  cr_done r && is_nil (cr_err r).

(** How many events of a trace satisfy [f]. *)
Definition count_of (f : Event -> bool) (tr : list Event) : nat :=
  List.length (filter f tr).

(** Any event but the two info-level log entries. *)
Definition plain (e : Event) : bool :=
  match e with
  | Logged (LogStart _) | Logged (LogConfirmed _) => false
  | _ => true
  end.

(** Two environments that differ at most in which non-nil errors the calls
    of [check] return. *)
Definition same_but_errors (w w' : Env) : Prop :=
  (forall q i, lag w q i = lag w' q i) /\
  (forall i, coin w i = coin w' i) /\
  (forall i, stale w i = stale w' i) /\
  (forall k t,
     cr_done (check w k t) = cr_done (check w' k t) /\
     cr_dur (check w k t) = cr_dur (check w' k t) /\
     is_nil (cr_err (check w k t)) = is_nil (cr_err (check w' k t))).

(** Two frames that differ at most in their traces. *)
Definition same_state (f f' : Frame) : Prop :=
  pl f = pl f' /\ start f = start f' /\ now f = now f' /\ tc f = tc f' /\
  iter f = iter f' /\ calls f = calls f'.

(** Two passes that ended the same way, in the same state. *)
Definition same_flow (a b : Flow) : Prop :=
  match a, b with
  | Continue f, Continue f' => same_state f f'
  | Break f, Break f' => same_state f f'
  | Return t e f, Return t' e' f' => t = t' /\ e = e' /\ same_state f f'
  | Panic f, Panic f' => same_state f f'
  | _, _ => False
  end.

(** What holds of the calls of [check] made so far, for a frame at the loop
    head or at the exit of a call that started at [t0]: they are numbered in
    order, call [k] started no earlier than [k] times [gap] after the first
    tick and the calls are over, one before the next starts. *)
Definition orderly_calls (gap : Duration) (t0 : Time) (g : Frame) : Prop :=
  check_indices (history g) = seq 0 (calls g) /\
  (forall k c d b e, In (Checked k c d b e) (trace g) ->
     (k < calls g)%nat /\ t0 + 1 + Z.of_nat k * gap <= c /\
     c <= d /\ d <= now g) /\
  (forall j k cj dj bj ej ck dk bk ek,
     (j < k)%nat ->
     In (Checked j cj dj bj ej) (trace g) ->
     In (Checked k ck dk bk ek) (trace g) ->
     dj <= ck).

(** ** Basic facts about contexts, frames and the loop *)

Lemma Err_value c t e : Err c t = Some e -> e = err_value c.
Proof.
  unfold Err. destruct (fires_at c) as [r|]; [|discriminate].
  destruct (r <=? t); congruence.
Qed.

(** A context that has fired stays fired, with the same error. *)
Lemma Err_mono c t t' e : Err c t = Some e -> t <= t' -> Err c t' = Some e.
Proof.
  unfold Err. destruct (fires_at c) as [r|]; [|discriminate].
  destruct (r <=? t) eqn:E; [|discriminate]. intros H Hle.
  apply Z.leb_le in E.
  assert (E' : (r <=? t') = true) by (apply Z.leb_le; lia).
  now rewrite E'.
Qed.

Lemma Done_mono c t t' : Done c t = true -> t <= t' -> Done c t' = true.
Proof.
  unfold Done. destruct (Err c t) as [e|] eqn:E; [|discriminate].
  intros _ Hle. now rewrite (Err_mono _ _ _ _ E Hle).
Qed.

Lemma Done_fires c t :
  Done c t = true <-> exists r, fires_at c = Some r /\ r <= t.
Proof.
  unfold Done, Err. destruct (fires_at c) as [r|].
  - destruct (r <=? t) eqn:E; simpl.
    + apply Z.leb_le in E. split; eauto.
    + apply Z.leb_gt in E. split; [discriminate|].
      intros [r' [[= <-] H]]. lia.
  - simpl. split; [discriminate|]. intros [r [[=] _]].
Qed.

Lemma Poll_unfold fuel w p ctx t0 :
  Poll fuel w p ctx t0 =
  run_deferred (loop fuel w ctx (enter p t0 (mkTicker 1 (t0 + 1) false))).
Proof. reflexivity. Qed.

Lemma run_deferred_fst r : fst (run_deferred r) = fst r.
Proof. destruct r as [[] g]; reflexivity. Qed.

Lemma run_deferred_trace r : trace (snd (run_deferred r)) = trace (snd r).
Proof. destruct r as [[] g]; reflexivity. Qed.

Lemma run_deferred_pl r : pl (snd (run_deferred r)) = pl (snd r).
Proof. destruct r as [[] g]; reflexivity. Qed.

Lemma run_deferred_now r : now (snd (run_deferred r)) = now (snd r).
Proof. destruct r as [[] g]; reflexivity. Qed.

(** Run one pass of the loop on a frame given by its fields, down to the
    environment's answers (call by value, so that frames stay small). *)
Ltac run_iter_in H :=
  cbv beta iota zeta delta
    [loop_iter wait_phase check_phase after_loop Reset negb is_nil
     pause emit at_time with_tc next_iter called
     pl start now tc iter calls trace frame_of fst snd] in H.

Ltac run_iter :=
  cbv beta iota zeta delta
    [loop_iter wait_phase check_phase after_loop Reset negb is_nil
     pause emit at_time with_tc next_iter called
     pl start now tc iter calls trace frame_of fst snd].

Ltac proj_simpl :=
  cbn [pl start now tc iter calls trace tk_next tk_period tk_stopped
       frame_of fst snd] in *.

(** Case analysis on an innermost [match] of the goal or of a hypothesis. *)
Ltac break_match :=
  match goal with
  | |- context [match ?x with _ => _ end] =>
      lazymatch x with
      | context [match _ with _ => _ end] => fail
      | _ => destruct x eqn:?
      end
  | H : context [match ?x with _ => _ end] |- _ =>
      lazymatch x with
      | context [match _ with _ => _ end] => fail
      | _ => destruct x eqn:?
      end
  end.

(** The rule for the loop: an invariant [I] of the frames at the loop head,
    and a post-condition [Q] established by each way of leaving. *)
Section LoopRule.
Variables (w : Env) (ctx : Context).
Variable I : Frame -> Prop.
Variable Q : Outcome -> Frame -> Prop.
Hypothesis Hcont : forall f f', I f -> loop_iter w ctx f = Continue f' -> I f'.
Hypothesis Hfuel : forall f, I f -> Q Running f.
Hypothesis Hbreak : forall f f', I f -> loop_iter w ctx f = Break f' ->
  Q (Returned (fst (fst (after_loop w ctx f'))) (snd (fst (after_loop w ctx f'))))
    (snd (after_loop w ctx f')).
Hypothesis Hret : forall f took err f', I f ->
  loop_iter w ctx f = Return took err f' -> Q (Returned took err) f'.
Hypothesis Hpanic : forall f f', I f -> loop_iter w ctx f = Panic f' ->
  Q Panicked f'.

Lemma loop_rule fuel : forall f, I f ->
  Q (fst (loop fuel w ctx f)) (snd (loop fuel w ctx f)).
Proof.
  induction fuel as [|n IH]; intros f Hf; cbn [loop].
  - now apply Hfuel.
  - destruct (loop_iter w ctx f) as [f'|f'|took err f'|f'] eqn:E.
    + apply IH. eapply Hcont; eauto.
    + specialize (Hbreak f f' Hf E).
      destruct (after_loop w ctx f') as [[took err] f'']. exact Hbreak.
    + cbn [fst snd]. eapply Hret; eauto.
    + cbn [fst snd]. eapply Hpanic; eauto.
Qed.
End LoopRule.

(** What one pass preserves: the receiver and the start time. *)
Lemma loop_iter_frame w ctx f :
  pl (frame_of (loop_iter w ctx f)) = pl f /\
  start (frame_of (loop_iter w ctx f)) = start f.
Proof.
  destruct f as [p s n tk i k tr]. run_iter.
  repeat break_match; split; reflexivity.
Qed.

Lemma after_loop_frame w ctx f :
  pl (snd (after_loop w ctx f)) = pl f /\
  start (snd (after_loop w ctx f)) = start f.
Proof. destruct f as [p s n tk i k tr]. run_iter. split; reflexivity. Qed.

Lemma loop_iter_pl w ctx f fl :
  loop_iter w ctx f = fl -> pl (frame_of fl) = pl f.
Proof. intros <-. apply loop_iter_frame. Qed.

Lemma loop_pl fuel w ctx f : pl (snd (loop fuel w ctx f)) = pl f.
Proof.
  apply (loop_rule w ctx (fun g => pl g = pl f) (fun _ g => pl g = pl f));
    auto.
  - intros g g' Hg E. apply loop_iter_pl in E. cbn in E. congruence.
  - intros g g' Hg E. apply loop_iter_pl in E. cbn in E.
    rewrite (proj1 (after_loop_frame w ctx g')). congruence.
  - intros g took err g' Hg E. apply loop_iter_pl in E. cbn in E. congruence.
  - intros g g' Hg E. apply loop_iter_pl in E. cbn in E. congruence.
Qed.

(** ** The select statement *)

Lemma select_spec root tk coin t tw c :
  select root tk coin t = (tw, c) ->
  tw = Z.max t (fires_within root (tk_next tk)) /\
  (c = CaseTick -> tk_next tk <= tw) /\
  (c = CaseRootDone -> Done root tw = true).
Proof.
  assert (Hnf : Done root t = false -> forall r, fires_at root = Some r -> t < r).
  { intros D r Hr. destruct (Z.lt_ge_cases t r) as [|Hge]; [assumption|].
    assert (Done root t = true) by (apply Done_fires; eauto). congruence. }
  unfold select, fires_within, tick_ready.
  destruct (Done root t) eqn:D;
    [apply Done_fires in D as (r & Hr & Hle); rewrite Hr
    |specialize (Hnf eq_refl); destruct (fires_at root) as [r|] eqn:Hr;
     [specialize (Hnf r eq_refl)|clear Hnf]];
    (destruct (tk_next tk <=? t) eqn:T;
     [apply Z.leb_le in T|apply Z.leb_gt in T]);
    try (destruct (r <? tk_next tk) eqn:E1;
         [apply Z.ltb_lt in E1|apply Z.ltb_ge in E1;
          destruct (tk_next tk <? r) eqn:E2;
          [apply Z.ltb_lt in E2|apply Z.ltb_ge in E2]]);
    intros [= <- <-]; repeat split; intros; try lia; try congruence;
    try (apply Done_fires; exists r; split; [assumption|lia]).
Qed.

Lemma select_time root tk coin t : t <= fst (select root tk coin t).
Proof.
  destruct (select root tk coin t) as [tw c] eqn:E.
  apply select_spec in E as [-> _]. cbn. lia.
Qed.

(** ** One pass of the loop, outcome by outcome *)

Ltac unfold_instants :=
  unfold checked_events, woke_events, t_post_root, t_post_ctx, t_ret,
    t_next_tick, tick_left, the_run, t_call, t_reset, t_woke,
    the_select, t_select, t_cond_ctx, t_cond_root, L in *.

Ltac iter_cases E :=
  unfold_instants; run_iter_in E; proj_simpl;
  repeat break_match; try discriminate.

Lemma loop_iter_Continue w ctx f f' :
  loop_iter w ctx f = Continue f' ->
  Err (rootCtx (pl f)) (t_cond_root w f) = None /\
  Err ctx (t_cond_ctx w f) = None /\
  snd (the_select w f) = CaseTick /\
  0 < interval (pl f) /\
  (cr_err (the_run w f) = None -> cr_done (the_run w f) = false) /\
  pl f' = pl f /\ start f' = start f /\ now f' = t_ret w f /\
  tk_next (tc f') = t_next_tick w f /\
  iter f' = S (iter f) /\ calls f' = S (calls f) /\
  trace f' =
    match cr_err (the_run w f) with
    | Some e => [Logged (LogCheckFailed e)]
    | None => []
    end ++ checked_events w f ++ trace f.
Proof.
  destruct f as [p s n tk i k tr]. intros E. iter_cases E;
    injection E as <-; proj_simpl;
    repeat match goal with
           | H : (_ <=? _) = false |- _ => apply Z.leb_gt in H
           | H : cr_err _ = _ |- _ => rewrite H
           end;
    repeat split; try reflexivity; try assumption; try congruence;
    cbn [app]; congruence.
Qed.

Lemma loop_iter_Break w ctx f f' :
  loop_iter w ctx f = Break f' ->
  pl f' = pl f /\ start f' = start f /\ iter f' = iter f /\
  calls f' = calls f /\
  ((exists e, Err (rootCtx (pl f)) (t_cond_root w f) = Some e /\
              now f' = t_cond_root w f /\
              trace f' = RootErr AtCondRoot (t_cond_root w f) (Some e) :: trace f)
   \/
   (exists e, Err (rootCtx (pl f)) (t_cond_root w f) = None /\
              Err ctx (t_cond_ctx w f) = Some e /\
              now f' = t_cond_ctx w f /\
              trace f' = CtxErr AtCondCtx (t_cond_ctx w f) (Some e)
                         :: RootErr AtCondRoot (t_cond_root w f) None
                         :: trace f)).
Proof.
  destruct f as [p s n tk i k tr]. intros E. iter_cases E;
    injection E as <-; proj_simpl; repeat split;
    [left|right]; eexists; repeat split; eauto.
Qed.

Lemma loop_iter_Return w ctx f took err f' :
  loop_iter w ctx f = Return took err f' ->
  Err (rootCtx (pl f)) (t_cond_root w f) = None /\
  Err ctx (t_cond_ctx w f) = None /\
  pl f' = pl f /\ start f' = start f /\ took = Since (start f) (now f') /\
  ((err = Some ErrAborted /\
    snd (the_select w f) = CaseRootDone /\
    now f' = t_woke w f + L w f AtReturn /\
    calls f' = calls f /\
    trace f' = woke_events w f CaseRootDone ++ trace f)
   \/
   (err = None /\
    snd (the_select w f) = CaseTick /\
    0 < interval (pl f) /\
    cr_done (the_run w f) = true /\ cr_err (the_run w f) = None /\
    now f' = t_ret w f + L w f AtReturn /\
    calls f' = S (calls f) /\
    trace f' = Logged (LogConfirmed took) :: checked_events w f ++ trace f)).
Proof.
  destruct f as [p s n tk i k tr]. intros E. iter_cases E;
    injection E as <- <- <-; proj_simpl;
    repeat match goal with
           | H : (_ <=? _) = false |- _ => apply Z.leb_gt in H
           | H : cr_err _ = _ |- _ => rewrite H
           | H : cr_done _ = _ |- _ => rewrite H
           end;
    (repeat split; try reflexivity; try assumption);
    first [ left; repeat split; try reflexivity; try assumption;
            cbn [app]; congruence
          | right; repeat split; try reflexivity; try assumption;
            cbn [app]; congruence ].
Qed.

Lemma loop_iter_Panic w ctx f f' :
  loop_iter w ctx f = Panic f' ->
  Err (rootCtx (pl f)) (t_cond_root w f) = None /\
  Err ctx (t_cond_ctx w f) = None /\
  snd (the_select w f) = CaseTick /\
  interval (pl f) <= 0 /\
  pl f' = pl f /\ calls f' = calls f /\
  trace f' = woke_events w f CaseTick ++ trace f.
Proof.
  destruct f as [p s n tk i k tr]. intros E. iter_cases E;
    injection E as <-; proj_simpl;
    repeat match goal with
           | H : (_ <=? _) = true |- _ => apply Z.leb_le in H
           end;
    repeat split; try reflexivity; try assumption.
Qed.

Lemma after_loop_spec w ctx f :
  let t1 := t_post_ctx w f (now f) in
  let t2 := t_post_root w f (now f) in
  let r := after_loop w ctx f in
  snd (fst r) = (if Done (rootCtx (pl f)) t2 then Some ErrAborted else Err ctx t1) /\
  pl (snd r) = pl f /\ start (snd r) = start f /\ calls (snd r) = calls f /\
  now (snd r) = t2 + L w f AtReturn /\
  fst (fst r) = Since (start f) (now (snd r)) /\
  trace (snd r) =
    RootErr AtPostRoot t2 (Err (rootCtx (pl f)) t2)
    :: CtxErr AtPostCtx t1 (Err ctx t1) :: trace f.
Proof.
  destruct f as [p s n tk i k tr]. unfold_instants. proj_simpl.
  repeat split.
Qed.

(** [Poll] is the loop, plus the deferred stop of the ticker. *)
Lemma Poll_loop fuel w p ctx t0 o f :
  Poll fuel w p ctx t0 = (o, f) ->
  let r := loop fuel w ctx (enter p t0 (mkTicker 1 (t0 + 1) false)) in
  fst r = o /\ trace f = trace (snd r) /\ pl f = pl (snd r) /\
  now f = now (snd r) /\ calls f = calls (snd r) /\ start f = start (snd r).
Proof.
  rewrite Poll_unfold. intros H r. fold r in H.
  destruct r as [[] g]; injection H as <- <-; repeat split.
Qed.

(** The clock never runs backwards within a pass. *)
Lemma instants_mono w f :
  now f <= t_cond_root w f <= t_cond_ctx w f /\
  t_cond_ctx w f <= t_select w f <= t_woke w f /\
  t_woke w f <= t_reset w f <= t_call w f /\
  t_call w f <= t_ret w f.
Proof.
  pose proof (select_time (rootCtx (pl f)) (tc f) (coin w (iter f))
                (t_select w f)) as Hs.
  unfold_instants. lia.
Qed.

(** A pass that starts after a context has fired leaves the loop on its
    condition. *)
Lemma loop_iter_fired w ctx f :
  Done (rootCtx (pl f)) (now f) = true \/ Done ctx (now f) = true ->
  exists f', loop_iter w ctx f = Break f'.
Proof.
  intros Hd. pose proof (instants_mono w f) as Hm.
  assert (Hn : ~ (Err (rootCtx (pl f)) (t_cond_root w f) = None /\
                  Err ctx (t_cond_ctx w f) = None)).
  { intros [Hr Hc]. destruct Hd as [Hd|Hd].
    - apply (Done_mono _ _ (t_cond_root w f)) in Hd; [|lia].
      unfold Done in Hd. rewrite Hr in Hd. discriminate.
    - apply (Done_mono _ _ (t_cond_ctx w f)) in Hd; [|lia].
      unfold Done in Hd. rewrite Hc in Hd. discriminate. }
  destruct (loop_iter w ctx f) as [f'|f'|took err f'|f'] eqn:E.
  - apply loop_iter_Continue in E as (Hr & Hc & _). tauto.
  - eauto.
  - apply loop_iter_Return in E as (Hr & Hc & _). tauto.
  - apply loop_iter_Panic in E as (Hr & Hc & _). tauto.
Qed.

(** ** Cancellation precedence *)

Lemma loop_iter_not_left w ctx f f' :
  loop_iter w ctx f = Continue f' ->
  loop_left_at (trace f) = None -> loop_left_at (trace f') = None.
Proof.
  destruct f as [p s n tk i k tr]. intros E H. run_iter_in E. proj_simpl.
  repeat break_match; try discriminate; injection E as <-; cbn; exact H.
Qed.

Lemma loop_iter_break w ctx f f' :
  loop_iter w ctx f = Break f' ->
  loop_left_at (trace f') = Some (now f') /\
  (Err (rootCtx (pl f)) (now f') <> None \/ Err ctx (now f') <> None).
Proof.
  destruct f as [p s n tk i k tr]. intros E. run_iter_in E. proj_simpl.
  repeat break_match; try discriminate; injection E as <-; cbn;
    match goal with H : Err _ _ = Some _ |- _ => rewrite H end;
    (split; [reflexivity|]); [left|right]; congruence.
Qed.

Lemma loop_iter_return w ctx f took err f' :
  loop_iter w ctx f = Return took err f' ->
  err = None \/ err = Some ErrAborted.
Proof.
  destruct f as [p s n tk i k tr]. intros E. run_iter_in E.
  repeat break_match; try discriminate; injection E as <- <- <-; auto.
Qed.

Lemma loop_iter_success_not_left w ctx f took f' :
  loop_iter w ctx f = Return took None f' ->
  loop_left_at (trace f) = None -> loop_left_at (trace f') = None.
Proof.
  destruct f as [p s n tk i k tr]. intros E H. run_iter_in E. proj_simpl.
  repeat break_match; try discriminate; injection E as <- <-; cbn; exact H.
Qed.

Lemma after_loop_result w ctx f :
  after_loop w ctx f =
  (Since (start f)
     (now f + Z.of_N (lag w AtPostCtx (iter f)) +
      Z.of_N (lag w AtPostRoot (iter f)) + Z.of_N (lag w AtReturn (iter f))),
   (if Done (rootCtx (pl f))
         (now f + Z.of_N (lag w AtPostCtx (iter f)) +
          Z.of_N (lag w AtPostRoot (iter f)))
    then Some ErrAborted
    else Err ctx (now f + Z.of_N (lag w AtPostCtx (iter f)))),
   snd (after_loop w ctx f)).
Proof. destruct f as [p s n tk i k tr]. reflexivity. Qed.

Lemma after_loop_trace w ctx f :
  exists t1 e1 t2 e2,
    trace (snd (after_loop w ctx f)) =
    RootErr AtPostRoot t2 e2 :: CtxErr AtPostCtx t1 e1 :: trace f.
Proof. destruct f as [p s n tk i k tr]. run_iter. eauto. Qed.

(** C1. Whenever the loop of [Poll] has been left other than by success and the
    root context had fired by the time it was left, [Poll] returns
    [ErrAborted], whatever the operation context did and whichever context
    fired first. *)
Theorem root_fired_at_loop_exit_aborts fuel w p ctx t0 took err f t :
  Poll fuel w p ctx t0 = (Returned took err, f) ->
  loop_left_at (trace f) = Some t ->
  Done (rootCtx p) t = true ->
  err = Some ErrAborted.
Proof.
  rewrite Poll_unfold. intros HP Hleft Hroot.
  set (f0 := enter p t0 (mkTicker 1 (t0 + 1) false)) in *.
  assert (Ht : trace f = trace (snd (loop fuel w ctx f0)))
    by (rewrite <- run_deferred_trace, HP; reflexivity).
  assert (Ho : fst (loop fuel w ctx f0) = Returned took err)
    by (rewrite <- run_deferred_fst, HP; reflexivity).
  rewrite Ht in Hleft. clear HP Ht.
  revert took err t Ho Hleft Hroot.
  apply (loop_rule w ctx
           (fun g => loop_left_at (trace g) = None /\ pl g = p)
           (fun o g => forall took err t, o = Returned took err ->
              loop_left_at (trace g) = Some t ->
              Done (rootCtx p) t = true -> err = Some ErrAborted)).
  - intros g g' [Hn Hp] E. split.
    + eapply loop_iter_not_left; eauto.
    + apply loop_iter_pl in E. cbn in E. congruence.
  - discriminate.
  - intros g g' [Hn Hp] E took err t Ho Hleft Hroot.
    pose proof (loop_iter_pl _ _ _ _ E) as Hpl. cbn in Hpl.
    apply loop_iter_break in E as [Hl _].
    destruct (after_loop_trace w ctx g') as (t1 & e1 & t2 & e2 & Htr).
    rewrite Htr in Hleft. cbn in Hleft. rewrite Hl in Hleft.
    injection Hleft as <-.
    rewrite after_loop_result in Ho. cbn [fst snd] in Ho.
    rewrite Hpl, Hp in Ho.
    rewrite (Done_mono (rootCtx p) (now g')) in Ho; [congruence|exact Hroot|lia].
  - intros g took err g' [Hn _] E took' err' t Ho Hleft _.
    injection Ho as <- <-.
    destruct (loop_iter_return _ _ _ _ _ _ E) as [-> | ->]; [|reflexivity].
    rewrite (loop_iter_success_not_left _ _ _ _ _ E Hn) in Hleft. discriminate.
  - discriminate.
  - split; reflexivity.
Qed.

(** The root context fires between the two reads of the loop condition, after
    the operation context: the loop is left at 6 on the operation context, and
    the result is [ErrAborted]. *)
Lemma root_fired_at_loop_exit_aborts_witness :
  fst (Poll 5 race_env race_poller race_ctx 0) = Returned 6 (Some ErrAborted) /\
  loop_left_at (trace (snd (Poll 5 race_env race_poller race_ctx 0))) = Some 6 /\
  Err race_ctx 6 = Some DeadlineExceeded /\
  Some ErrAborted = Some ErrAborted.
Proof.
  split; [vm_compute; reflexivity|]. split; [vm_compute; reflexivity|].
  split; [reflexivity|].
  apply (root_fired_at_loop_exit_aborts 5 race_env race_poller race_ctx 0 6
           (Some ErrAborted) (snd (Poll 5 race_env race_poller race_ctx 0)) 6);
    vm_compute; reflexivity.
Defined.

(** ** Success, panics, and predicates that never succeed *)

Lemma no_success_cons e tr :
  succeeded e = false -> no_success tr -> no_success (e :: tr).
Proof. intros He Htr e' [<-|Hin]; auto. Qed.

Lemma no_successb_ok tr : no_successb tr = true -> no_success tr.
Proof.
  unfold no_successb. rewrite forallb_forall. intros H e Hin.
  apply H in Hin. now destruct (succeeded e).
Qed.

Lemma no_success_app l tr :
  no_success l -> no_success tr -> no_success (l ++ tr).
Proof. intros Hl Htr e Hin. apply in_app_or in Hin as [H|H]; auto. Qed.

Lemma no_success_woke w f c : no_success (woke_events w f c).
Proof.
  intros e Hin. unfold woke_events in Hin. cbn in Hin.
  repeat (destruct Hin as [<-|Hin]; [reflexivity|]). contradiction.
Qed.

Lemma no_success_Continue w ctx g g' :
  loop_iter w ctx g = Continue g' -> no_success (trace g) -> no_success (trace g').
Proof.
  intros E Hg.
  apply loop_iter_Continue in E
    as (_ & _ & _ & _ & Hnd & _ & _ & _ & _ & _ & _ & Htr).
  rewrite Htr.
  apply no_success_app; [|apply no_success_app; [|exact Hg]].
  - destruct (cr_err (the_run w g)); intros ev Hin;
      [destruct Hin as [<-|[]]; reflexivity|contradiction].
  - unfold checked_events. apply no_success_cons.
    + cbn. destruct (cr_err (the_run w g)); [now destruct (cr_done _)|].
      now rewrite Hnd.
    + apply no_success_cons; [reflexivity|apply no_success_woke].
Qed.

(** C10. If a call of [check] has returned [(true, nil)], [Poll] returns a nil
    error together with the time elapsed, whether or not the root or the
    operation context fired while that call was running. *)
Theorem success_takes_priority fuel w p ctx t0 o f k c d :
  Poll fuel w p ctx t0 = (o, f) ->
  In (Checked k c d true None) (trace f) ->
  o = Returned (Since t0 (now f)) None.
Proof.
  intros HP. apply Poll_loop in HP as (Ho & Ht & _ & Hn & _ & _).
  rewrite Ht, Hn, <- Ho. clear. intros Hin.
  assert (Hs : ~ no_success
                 (trace (snd (loop fuel w ctx
                     (enter p t0 (mkTicker 1 (t0 + 1) false))))))
    by (intros H; apply H in Hin; discriminate).
  clear Hin. revert Hs.
  apply (loop_rule w ctx
           (fun g => no_success (trace g) /\ start g = t0)
           (fun o g => ~ no_success (trace g) ->
                       o = Returned (Since t0 (now g)) None)).
  - intros g g' [Hg Hst] E.
    apply loop_iter_Continue in E
      as (_ & _ & _ & _ & Hnd & _ & Hst' & _ & _ & _ & _ & Htr).
    split; [|congruence]. rewrite Htr.
    apply no_success_app; [|apply no_success_app; [|exact Hg]].
    + destruct (cr_err (the_run w g)); intros ev Hin;
        [destruct Hin as [<-|[]]; reflexivity|contradiction].
    + unfold checked_events. apply no_success_cons.
      * cbn. destruct (cr_err (the_run w g)); [now destruct (cr_done _)|].
        now rewrite Hnd.
      * apply no_success_cons; [reflexivity|apply no_success_woke].
  - intros g [Hg _] Hs. contradiction.
  - intros g g' [Hg _] E Hs. exfalso. apply Hs.
    destruct (after_loop_spec w ctx g') as (_ & _ & _ & _ & _ & _ & Htr).
    rewrite Htr. do 2 (apply no_success_cons; [reflexivity|]).
    apply loop_iter_Break in E
      as (_ & _ & _ & _ & [(e & _ & _ & Htr')|(e & _ & _ & _ & Htr')]);
      rewrite Htr'; repeat (apply no_success_cons; [reflexivity|]); exact Hg.
  - intros g took err g' [Hg Hst] E Hs.
    apply loop_iter_Return in E
      as (_ & _ & _ & Hst' & -> & [(_ & _ & _ & _ & Htr)|(-> & _)]).
    + exfalso. apply Hs. rewrite Htr.
      apply no_success_app; [apply no_success_woke|exact Hg].
    + now rewrite Hst.
  - intros g g' [Hg _] E Hs. exfalso. apply Hs.
    apply loop_iter_Panic in E as (_ & _ & _ & _ & _ & _ & Htr).
    rewrite Htr. apply no_success_app; [apply no_success_woke|exact Hg].
  - split; [|reflexivity]. intros e [<-|[]]. reflexivity.
Qed.

(** The first call runs from 1 to 9; the root context fires at 3 and the
    operation context at 5, both while it runs; the result is success. *)
Lemma success_takes_priority_witness :
  Err (rootCtx late_poller) 9 = Some Canceled /\
  Err late_ctx 9 = Some DeadlineExceeded /\
  In (Checked 0 1 9 true None)
     (trace (snd (Poll 3 late_env late_poller late_ctx 0))) /\
  fst (Poll 3 late_env late_poller late_ctx 0) = Returned 9 None.
Proof.
  split; [reflexivity|]. split; [reflexivity|].
  assert (H : In (Checked 0 1 9 true None)
                (trace (snd (Poll 3 late_env late_poller late_ctx 0))))
    by (vm_compute; auto).
  split; [exact H|].
  rewrite (success_takes_priority 3 late_env late_poller late_ctx 0
             (fst (Poll 3 late_env late_poller late_ctx 0))
             (snd (Poll 3 late_env late_poller late_ctx 0)) 0 1 9
             (surjective_pairing _) H).
  vm_compute. reflexivity.
Defined.

Lemma woke_events_tick w f c t :
  In (Woke t CaseTick) (woke_events w f c) -> c = CaseTick.
Proof.
  unfold woke_events. cbn. intros [H|[H|[H|[H|[]]]]]; congruence.
Qed.

(** C9. [New] stores whatever interval it is given.  With an interval that is
    zero or negative, [check] is never called, and a call of [Poll] whose
    [select] receives the first tick panics in [tc.Reset]. *)
Theorem nonpositive_interval_panics r i fuel w ctx t0 o f :
  i <= 0 ->
  Poll fuel w (New r i) ctx t0 = (o, f) ->
  interval (New r i) = i /\ rootCtx (New r i) = r /\
  calls f = 0%nat /\
  (forall t, In (Woke t CaseTick) (trace f) -> o = Panicked).
Proof.
  intros Hi HP. split; [reflexivity|]. split; [reflexivity|].
  apply Poll_loop in HP as (Ho & Ht & _ & _ & Hc & _).
  rewrite Ht, Hc, <- Ho. clear Ho Ht Hc.
  apply (loop_rule w ctx
           (fun g => pl g = New r i /\ calls g = 0%nat /\
                     forall t, ~ In (Woke t CaseTick) (trace g))
           (fun o g => calls g = 0%nat /\
                       forall t, In (Woke t CaseTick) (trace g) -> o = Panicked)).
  - intros g g' (Hp & _) E. apply loop_iter_Continue in E as (_ & _ & _ & Hpos & _).
    rewrite Hp in Hpos. cbn in Hpos. lia.
  - intros g (_ & Hc & Hw). split; [exact Hc|]. intros t Hin.
    now apply Hw in Hin.
  - intros g g' (_ & Hc & Hw) E.
    destruct (after_loop_spec w ctx g') as (_ & _ & _ & Hc' & _ & _ & Htr).
    apply loop_iter_Break in E
      as (_ & _ & _ & Hc'' & [(e & _ & _ & Htr')|(e & _ & _ & _ & Htr')]);
      (split; [congruence|]); intros t; rewrite Htr, Htr'; cbn;
      intros Hin; exfalso;
      repeat (destruct Hin as [Hin|Hin]; [discriminate|]);
      now apply Hw in Hin.
  - intros g took err g' (Hp & Hc & Hw) E.
    apply loop_iter_Return in E
      as (_ & _ & _ & _ & _ &
          [(_ & _ & _ & Hc' & Htr)|(_ & _ & Hpos & _)]).
    + split; [congruence|]. intros t. rewrite Htr. intros Hin. exfalso.
      apply in_app_or in Hin as [Hin|Hin].
      * apply woke_events_tick in Hin. discriminate.
      * now apply Hw in Hin.
    + rewrite Hp in Hpos. cbn in Hpos. lia.
  - intros g g' (_ & Hc & _) E.
    apply loop_iter_Panic in E as (_ & _ & _ & _ & _ & Hc' & _).
    split; [congruence|]. reflexivity.
  - split; [reflexivity|]. split; [reflexivity|].
    intros t [H|[]]. discriminate.
Qed.

(** With interval 0 and contexts that never fire, the first tick is received
    at 1 and the reset panics. *)
Lemma nonpositive_interval_panics_witness :
  In (Woke 1 CaseTick)
     (trace (snd (Poll 3 deadline_env (New Background 0) Background 0))) /\
  fst (Poll 3 deadline_env (New Background 0) Background 0) = Panicked /\
  calls (snd (Poll 3 deadline_env (New Background 0) Background 0)) = 0%nat.
Proof.
  assert (H : In (Woke 1 CaseTick)
                (trace (snd (Poll 3 deadline_env (New Background 0) Background 0))))
    by (vm_compute; auto).
  destruct (nonpositive_interval_panics Background 0 3 deadline_env Background 0
              (fst (Poll 3 deadline_env (New Background 0) Background 0))
              (snd (Poll 3 deadline_env (New Background 0) Background 0))
              ltac:(lia) (surjective_pairing _)) as (_ & _ & Hc & Hp).
  split; [exact H|]. split; [exact (Hp 1 H)|exact Hc].
Defined.

Lemma the_select_spec w f :
  t_woke w f = Z.max (t_select w f) (fires_within (rootCtx (pl f)) (tk_next (tc f))) /\
  (snd (the_select w f) = CaseTick -> tk_next (tc f) <= t_woke w f) /\
  (snd (the_select w f) = CaseRootDone -> Done (rootCtx (pl f)) (t_woke w f) = true).
Proof.
  unfold t_woke. apply (select_spec _ _ (coin w (iter f)) (t_select w f)).
  unfold the_select. apply surjective_pairing.
Qed.

(** After the [Reset] of a pass the channel holds a tick from a time on that is
    later than the tick just received, and no later than one interval after
    the [Reset]. *)
Lemma next_tick_later w g :
  0 < interval (pl g) ->
  t_woke w g < t_next_tick w g /\
  t_next_tick w g <= t_reset w g + interval (pl g) /\
  (snd (the_select w g) = CaseTick -> tk_next (tc g) < t_next_tick w g).
Proof.
  intros Hpos.
  assert (Hr : t_woke w g <= t_reset w g) by (unfold t_reset, L; lia).
  assert (H : t_woke w g < t_next_tick w g /\
              t_next_tick w g <= t_reset w g + interval (pl g)).
  { unfold t_next_tick, tick_left.
    destruct (stale w (iter g)); cbn [andb]; [|lia].
    destruct (t_woke w g <? t_reset w g) eqn:E; [|lia].
    apply Z.ltb_lt in E. lia. }
  destruct H as [H1 H2]. repeat split; try assumption.
  intros Hc. apply (proj1 (proj2 (the_select_spec w g))) in Hc. lia.
Qed.

Lemma Done_false_Err c t : Done c t = false -> Err c t = None.
Proof. unfold Done. now destruct (Err c t). Qed.

(** Where the result of [Poll] comes from: a successful call of [check], or
    a context that has fired. *)
Lemma loop_result_sources w p ctx fuel f0 :
  pl f0 = p -> loop_left_at (trace f0) = None ->
  forall took err, fst (loop fuel w ctx f0) = Returned took err ->
    (err = None /\
     (exists k c d,
        S k = calls (snd (loop fuel w ctx f0)) /\
        In (Checked k c d true None) (trace (snd (loop fuel w ctx f0)))) /\
     loop_left_at (trace (snd (loop fuel w ctx f0))) = None) \/
    (err = Some ErrAborted /\
     Done (rootCtx p) (now (snd (loop fuel w ctx f0))) = true) \/
    (err = Some (err_value ctx) /\
     Done ctx (now (snd (loop fuel w ctx f0))) = true /\
     root_after_loop (trace (snd (loop fuel w ctx f0))) = Some None).
Proof.
  intros Hp0 Hl0.
  apply (loop_rule w ctx
           (fun g => pl g = p /\ loop_left_at (trace g) = None)
           (fun o g => forall took err, o = Returned took err ->
              (err = None /\
               (exists k c d,
                  S k = calls g /\ In (Checked k c d true None) (trace g)) /\
               loop_left_at (trace g) = None) \/
              (err = Some ErrAborted /\ Done (rootCtx p) (now g) = true) \/
              (err = Some (err_value ctx) /\ Done ctx (now g) = true /\
               root_after_loop (trace g) = Some None))).
  - intros g g' [Hp Hl] E. split.
    + apply loop_iter_Continue in E. intuition congruence.
    + eapply loop_iter_not_left; eauto.
  - discriminate.
  - intros g g' [Hp _] E took err Ho. right.
    destruct (after_loop_spec w ctx g') as (He & _ & _ & _ & Hn & _ & Htr).
    assert (Herr : err = snd (fst (after_loop w ctx g'))) by congruence.
    clear Ho. subst err. rewrite He, Hn, Htr. clear He Hn Htr.
    assert (Hle : now g' <= t_post_ctx w g' (now g') /\
                  t_post_ctx w g' (now g') <= t_post_root w g' (now g') /\
                  t_post_root w g' (now g') <=
                  t_post_root w g' (now g') + L w g' AtReturn)
      by (unfold_instants; lia).
    apply loop_iter_Break in E as (Hpl & _ & _ & _ & HB).
    rewrite Hpl, Hp in *.
    destruct (Done (rootCtx p) (t_post_root w g' (now g'))) eqn:Hd.
    + left. split; [reflexivity|].
      apply (Done_mono _ _ _ Hd). lia.
    + right. destruct HB as [(e & Hr & Hn & _)|(e & _ & Hc & Hn & _)].
      * exfalso. rewrite <- Hn in Hr.
        assert (Hd' : Done (rootCtx p) (now g') = true)
          by (unfold Done; rewrite Hr; reflexivity).
        apply (Done_mono _ _ (t_post_root w g' (now g'))) in Hd'; [|lia].
        congruence.
      * rewrite <- Hn in Hc. pose proof (Err_value _ _ _ Hc) as ->.
        rewrite (Err_mono _ _ (t_post_ctx w g' (now g')) _ Hc) by lia.
        split; [reflexivity|]. split.
        -- apply (Done_mono _ (now g')); [|lia].
           unfold Done. rewrite Hc. reflexivity.
        -- cbn. now rewrite (Done_false_Err _ _ Hd).
  - intros g took err g' [Hp Hl] E took' err' Ho. injection Ho as <- <-.
    pose proof E as E0.
    apply loop_iter_Return in E
      as (_ & _ & Hpl & _ & _ &
          [(-> & Hc & Hn & _)|(-> & _ & _ & Hd & He & _ & Hca & Htr)]).
    + right. left. split; [reflexivity|].
      apply (proj2 (proj2 (the_select_spec w g))) in Hc.
      rewrite Hp in Hc. apply (Done_mono _ _ _ Hc).
      rewrite Hn. unfold L. lia.
    + left. split; [reflexivity|]. split.
      * exists (calls g), (t_call w g), (t_ret w g).
        split; [congruence|]. rewrite Htr. unfold checked_events.
        rewrite Hd, He. right. now left.
      * eapply loop_iter_success_not_left; eauto.
  - discriminate.
  - split; assumption.
Qed.

(** When the read of the root context after the loop found it not fired, the
    loop was left on the operation context, whose error is returned. *)
Lemma ctx_error_when_root_read_nil fuel w p ctx t0 took err f :
  Poll fuel w p ctx t0 = (Returned took err, f) ->
  root_after_loop (trace f) = Some None ->
  err = Some (err_value ctx) /\
  exists t, loop_left_at (trace f) = Some t /\ Err ctx t = err.
Proof.
  rewrite Poll_unfold. intros HP Hroot.
  set (f0 := enter p t0 (mkTicker 1 (t0 + 1) false)) in *.
  assert (Ht : trace f = trace (snd (loop fuel w ctx f0)))
    by (rewrite <- run_deferred_trace, HP; reflexivity).
  assert (Ho : fst (loop fuel w ctx f0) = Returned took err)
    by (rewrite <- run_deferred_fst, HP; reflexivity).
  rewrite Ht in *. clear HP Ht.
  revert took err Ho Hroot.
  apply (loop_rule w ctx (fun g => True)
           (fun o g => forall took err, o = Returned took err ->
              root_after_loop (trace g) = Some None ->
              err = Some (err_value ctx) /\
              exists t, loop_left_at (trace g) = Some t /\ Err ctx t = err));
    [auto|discriminate| | |discriminate|exact I].
  - intros g g' _ E took err Ho Hroot.
    destruct (after_loop_spec w ctx g') as (He & _ & _ & _ & _ & _ & Htr).
    assert (Herr : err = snd (fst (after_loop w ctx g'))) by congruence.
    clear Ho. rewrite Herr. clear Herr. rewrite Htr in *. cbn in Hroot.
    injection Hroot as Hroot.
    assert (Hd : Done (rootCtx (pl g')) (t_post_root w g' (now g')) = false)
      by (unfold Done; rewrite Hroot; reflexivity).
    rewrite He, Hd.
    assert (Hle : now g' <= t_post_ctx w g' (now g') <= t_post_root w g' (now g'))
      by (unfold_instants; lia).
    apply loop_iter_Break in E
      as (Hpl & _ & _ & _ & [(e & Hr & Hn & Htr')|(e & _ & Hc & Hn & Htr')]).
    + exfalso. rewrite <- Hn, <- Hpl in Hr.
      rewrite (Err_mono _ _ _ _ Hr (Z.le_trans _ _ _ (proj1 Hle) (proj2 Hle)))
        in Hroot. discriminate.
    + rewrite <- Hn in Hc. pose proof (Err_value _ _ _ Hc) as ->.
      rewrite (Err_mono _ _ _ _ Hc (proj1 Hle)). split; [reflexivity|].
      exists (now g'). rewrite Htr'. cbn. rewrite Hn.
      split; [reflexivity|rewrite <- Hn; exact Hc].
  - intros g took err g' _ E took' err' Ho Hroot. exfalso.
    apply loop_iter_Return in E
      as (_ & _ & _ & _ & _ & [(_ & _ & _ & _ & Htr)|(_ & _ & _ & _ & _ & _ & _ & Htr)]);
      rewrite Htr in Hroot; discriminate.
Qed.

(** C4. When the loop of [Poll] has been left because the operation context
    fired and the root context has not fired (the read of the root context
    after the loop, poll.go:73, finds it nil; in particular when the root
    context has not fired by the time [Poll] returns), the error returned is
    the operation context's own error value, unchanged. *)
Theorem ctx_error_returned_verbatim fuel w p ctx t0 took err f :
  Poll fuel w p ctx t0 = (Returned took err, f) ->
  root_after_loop (trace f) = Some None \/
  (loop_left_at (trace f) <> None /\ Done (rootCtx p) (now f) = false) ->
  err = Some (err_value ctx) /\
  exists t, loop_left_at (trace f) = Some t /\ Err ctx t = err.
Proof.
  intros HP [Hnil|[Hleft Hsilent]].
  - exact (ctx_error_when_root_read_nil _ _ _ _ _ _ _ _ HP Hnil).
  - apply (ctx_error_when_root_read_nil _ _ _ _ _ _ _ _ HP).
    apply Poll_loop in HP as (Ho & Ht & _ & Hn & _ & _).
    rewrite Ht, Hn in *.
    destruct (loop_result_sources w p ctx fuel
                (enter p t0 (mkTicker 1 (t0 + 1) false)) eq_refl eq_refl
                took err Ho)
      as [(_ & _ & H)|[(_ & H)|(_ & _ & H)]]; [contradiction|congruence|exact H].
Qed.

(** The operation context reaches its deadline at 25 and the root context
    never fires: [Poll] returns [DeadlineExceeded] itself. *)
Lemma ctx_error_returned_verbatim_witness :
  fst (Poll 5 deadline_env (New Background 10) deadline_ctx 0)
    = Returned 25 (Some DeadlineExceeded) /\
  Some DeadlineExceeded = Some (err_value deadline_ctx) /\
  exists t,
    loop_left_at (trace (snd (Poll 5 deadline_env (New Background 10) deadline_ctx 0)))
      = Some t /\
    Err deadline_ctx t = Some DeadlineExceeded.
Proof.
  split; [vm_compute; reflexivity|].
  apply (ctx_error_returned_verbatim 5 deadline_env (New Background 10)
           deadline_ctx 0 25 (Some DeadlineExceeded)
           (snd (Poll 5 deadline_env (New Background 10) deadline_ctx 0)));
    [vm_compute; reflexivity|left; vm_compute; reflexivity].
Defined.

(** Once a context has fired the loop ends: with a positive interval every
    pass moves the next tick forward by at least one nanosecond. *)
Lemma loop_terminates w ctx F n : forall g,
  0 < interval (pl g) ->
  (forall t, F <= t -> Done (rootCtx (pl g)) t = true \/ Done ctx t = true) ->
  F <= now g \/ F < tk_next (tc g) + Z.of_nat n ->
  exists took err f, loop (S (S n)) w ctx g = (Returned took err, f).
Proof.
  induction n as [|n IH]; intros g Hpos HF Hn;
    cbn [loop]; destruct (loop_iter w ctx g) as [g'|g'|took err g'|g'] eqn:E;
    try (destruct (after_loop w ctx g') as [[took err] g'']; eauto; fail);
    try (eauto; fail);
    try (apply loop_iter_Panic in E as (_ & _ & _ & Hle & _); lia).
  - (* the pass went through: the next one starts after [F] *)
    pose proof (instants_mono w g) as Hm.
    apply loop_iter_Continue in E
      as (_ & _ & Hc & _ & _ & Hpl & _ & Hnow & _).
    apply (proj1 (proj2 (the_select_spec w g))) in Hc.
    destruct (loop_iter_fired w ctx g') as [g'' E'].
    { rewrite Hpl. apply HF. lia. }
    rewrite E'. destruct (after_loop w ctx g'') as [[took err] g3]. eauto.
  - pose proof (instants_mono w g) as Hm.
    apply loop_iter_Continue in E
      as (_ & _ & Hc & _ & _ & Hpl & _ & Hnow & Htk & _).
    apply (proj2 (proj2 (next_tick_later w g Hpos))) in Hc.
    apply (IH g'); rewrite ?Hpl; auto. lia.
Qed.

Lemma never_succeeds_no_success w p ctx fuel t0 :
  never_succeeds w -> no_success (trace (snd (Poll fuel w p ctx t0))).
Proof.
  intros Hw. rewrite Poll_unfold, run_deferred_trace.
  apply (loop_rule w ctx (fun g => no_success (trace g))
           (fun _ g => no_success (trace g))); auto.
  - intros g g' Hg E. eapply no_success_Continue; eauto.
  - intros g g' Hg E.
    destruct (after_loop_spec w ctx g') as (_ & _ & _ & _ & _ & _ & ->).
    do 2 (apply no_success_cons; [reflexivity|]).
    apply loop_iter_Break in E
      as (_ & _ & _ & _ & [(x & _ & _ & ->)|(x & _ & _ & _ & ->)]);
      repeat (apply no_success_cons; [reflexivity|]); exact Hg.
  - intros g took err g' Hg E.
    apply loop_iter_Return in E
      as (_ & _ & _ & _ & _ &
          [(_ & _ & _ & _ & ->)|(_ & _ & _ & Hd & He & _)]).
    + apply no_success_app; [apply no_success_woke|exact Hg].
    + destruct (Hw _ _ Hd He).
  - intros g g' Hg E.
    apply loop_iter_Panic in E as (_ & _ & _ & _ & _ & _ & ->).
    apply no_success_app; [apply no_success_woke|exact Hg].
  - intros e [<-|[]]. reflexivity.
Qed.

(** C7. A call of [Poll] in which no call of [check] has returned
    [(true, nil)] does not return a nil error: what it returns is
    [ErrAborted], the root context having fired by then, or the operation
    context's own error, that context having fired by then and the root
    context having been found not fired.  This covers every call on a
    predicate that never returns [(true, nil)], such as one that always fails.
    And, every call of [check] returning, [Poll] does return, given a positive
    interval, once one of the two contexts fires. *)
Theorem never_succeeding_check_ends_on_a_signal w p ctx t0 :
  (forall fuel took err f,
     Poll fuel w p ctx t0 = (Returned took err, f) ->
     no_success (trace f) ->
     err <> None /\
     ((err = Some ErrAborted /\ Done (rootCtx p) (now f) = true) \/
      (err = Some (err_value ctx) /\ Done ctx (now f) = true /\
       root_after_loop (trace f) = Some None))) /\
  (never_succeeds w ->
   forall fuel, no_success (trace (snd (Poll fuel w p ctx t0)))) /\
  (0 < interval p ->
   (exists r, fires_at (rootCtx p) = Some r \/ fires_at ctx = Some r) ->
   exists fuel took err f, Poll fuel w p ctx t0 = (Returned took err, f)).
Proof.
  split; [|split].
  - intros fuel took err f HP Hns.
    apply Poll_loop in HP as (Ho & Ht & _ & Hn & _ & _).
    rewrite Ht in *. rewrite Hn.
    destruct (loop_result_sources w p ctx fuel
                (enter p t0 (mkTicker 1 (t0 + 1) false)) eq_refl eq_refl
                took err Ho)
      as [(_ & (k & c & d & _ & Hin) & _)|H].
    { apply Hns in Hin. discriminate. }
    split; [|exact H].
    destruct H as [[-> _]|[-> _]]; discriminate.
  - intros Hw fuel. now apply never_succeeds_no_success.
  - intros Hpos [r Hr].
    destruct (loop_terminates w ctx r (Z.to_nat (r - t0))
                (enter p t0 (mkTicker 1 (t0 + 1) false)))
      as (took & err & f & Hl).
    + exact Hpos.
    + intros t Ht. cbn [pl enter].
      destruct Hr as [Hr|Hr]; [left|right]; apply Done_fires; eauto.
    + right. cbn [tc enter tk_next]. lia.
    + exists (S (S (Z.to_nat (r - t0)))), took, err, (with_tc (Stop (tc f)) f).
      rewrite Poll_unfold, Hl. reflexivity.
Qed.

(** A predicate that succeeds from its hundredth call on, and an operation
    context with a deadline at 25: the call ends on the deadline after three
    calls of [check], none of which has succeeded.  And a predicate that
    always fails. *)
Lemma never_succeeding_check_ends_on_a_signal_witness :
  ~ never_succeeds patient_env /\
  no_success
    (trace (snd (Poll 5 patient_env (New Background 10) deadline_ctx 0))) /\
  fst (Poll 5 patient_env (New Background 10) deadline_ctx 0)
    = Returned 25 (Some DeadlineExceeded) /\
  Some DeadlineExceeded <> None /\
  no_success
    (trace (snd (Poll 5 failing_env (New Background 10) deadline_ctx 0))) /\
  exists fuel took err f,
    Poll fuel patient_env (New Background 10) deadline_ctx 0
      = (Returned took err, f).
Proof.
  assert (Hns : no_success
            (trace (snd (Poll 5 patient_env (New Background 10) deadline_ctx 0)))).
  { apply no_successb_ok. vm_compute. reflexivity. }
  assert (HP : Poll 5 patient_env (New Background 10) deadline_ctx 0 =
               (Returned 25 (Some DeadlineExceeded),
                snd (Poll 5 patient_env (New Background 10) deadline_ctx 0)))
    by (vm_compute; reflexivity).
  split.
  { intros H. specialize (H 100%nat 0 eq_refl). now apply H. }
  split; [exact Hns|]. split; [vm_compute; reflexivity|].
  split.
  { exact (proj1 (proj1 (never_succeeding_check_ends_on_a_signal
                           patient_env (New Background 10) deadline_ctx 0)
                    5%nat 25 (Some DeadlineExceeded) _ HP Hns)). }
  split.
  { apply (proj1 (proj2 (never_succeeding_check_ends_on_a_signal
                           failing_env (New Background 10) deadline_ctx 0))).
    intros k t _. discriminate. }
  apply (proj2 (proj2 (never_succeeding_check_ends_on_a_signal
                         patient_env (New Background 10) deadline_ctx 0)));
    [reflexivity|exists 25; right; reflexivity].
Defined.

(** ** Errors of the predicate *)

Lemma failures_handled_app cut h t r h' :
  failures_handled true h ->
  failures_handled cut (RootErr AtCondRoot t r :: h') ->
  failures_handled cut (h ++ RootErr AtCondRoot t r :: h').
Proof.
  intros Hh Hx. induction h as [|ev rest IH]; [exact Hx|].
  destruct Hh as [Hev Hrest]. cbn [app failures_handled].
  split; [|auto].
  destruct ev as [| | | | |k c d b [e|]|]; try exact I.
  destruct rest as [|[| | | | | |l] rest']; try contradiction.
  destruct Hev as (Hl & Hlv & Hnext). cbn. repeat split; try assumption.
  destruct rest'; [exact I|exact Hnext].
Qed.

Lemma history_app l f g :
  trace g = l ++ trace f -> history g = history f ++ rev l.
Proof. unfold history. intros ->. apply rev_app_distr. Qed.

Lemma failures_handled_loop w ctx fuel f :
  failures_handled true (history f) ->
  failures_handled (still_running (fst (loop fuel w ctx f)))
    (history (snd (loop fuel w ctx f))).
Proof.
  apply (loop_rule w ctx (fun g => failures_handled true (history g))
           (fun o g => failures_handled (still_running o) (history g))).
  - intros g g' Hg E.
    apply loop_iter_Continue in E
      as (_ & _ & _ & _ & _ & _ & _ & _ & _ & _ & _ & Htr).
    rewrite app_assoc in Htr. rewrite (history_app _ _ _ Htr).
    unfold checked_events, woke_events.
    destruct (cr_err (the_run w g)); cbn [rev app];
      (apply failures_handled_app; [exact Hg|]); cbn; tauto.
  - intros g Hg. exact Hg.
  - intros g g' Hg E.
    destruct (after_loop_spec w ctx g') as (_ & _ & _ & _ & _ & _ & Htr).
    apply loop_iter_Break in E
      as (_ & _ & _ & _ & [(e & _ & _ & Htr')|(e & _ & _ & _ & Htr')]);
      rewrite Htr' in Htr;
      match type of Htr with
      | _ = ?a :: ?b :: ?c :: ?d :: trace g =>
          apply (history_app [a; b; c; d]) in Htr
      | _ = ?a :: ?b :: ?c :: trace g =>
          apply (history_app [a; b; c]) in Htr
      end;
      rewrite Htr; cbn [rev app still_running];
      (apply failures_handled_app; [exact Hg|]); cbn; tauto.
  - intros g took err g' Hg E.
    apply loop_iter_Return in E
      as (_ & _ & _ & _ & _ &
          [(_ & _ & _ & _ & Htr)|(_ & _ & _ & _ & He & _ & _ & Htr)]).
    + rewrite (history_app _ _ _ Htr). unfold woke_events.
      cbn [rev app still_running].
      apply failures_handled_app; [exact Hg|]. cbn. tauto.
    + apply (history_app (_ :: _)) in Htr. rewrite Htr.
      unfold checked_events, woke_events. rewrite He.
      cbn [rev app still_running].
      apply failures_handled_app; [exact Hg|]. cbn. tauto.
  - intros g g' Hg E.
    apply loop_iter_Panic in E as (_ & _ & _ & _ & _ & _ & Htr).
    rewrite (history_app _ _ _ Htr). unfold woke_events.
    cbn [rev app still_running].
    apply failures_handled_app; [exact Hg|]. cbn. tauto.
Qed.

(** A pass in which [check] is called and returns an error ends in
    [continue], the warning written. *)
Lemma failed_pass_continues w ctx g e :
  Err (rootCtx (pl g)) (t_cond_root w g) = None ->
  Err ctx (t_cond_ctx w g) = None ->
  snd (the_select w g) = CaseTick -> 0 < interval (pl g) ->
  cr_err (the_run w g) = Some e ->
  exists g',
    loop_iter w ctx g = Continue g' /\
    trace g' = Logged (LogCheckFailed e) :: checked_events w g ++ trace g.
Proof.
  intros Hr Hc Hs Hpos He.
  destruct (loop_iter w ctx g) as [g'|g'|took err g'|g'] eqn:E.
  - exists g'. split; [reflexivity|].
    apply loop_iter_Continue in E
      as (_ & _ & _ & _ & _ & _ & _ & _ & _ & _ & _ & Htr).
    rewrite Htr, He. reflexivity.
  - apply loop_iter_Break in E
      as (_ & _ & _ & _ & [(x & Hx & _)|(x & _ & Hx & _)]); congruence.
  - apply loop_iter_Return in E
      as (_ & _ & _ & _ & _ & [(_ & Hx & _)|(_ & _ & _ & _ & Hx & _)]);
      congruence.
  - apply loop_iter_Panic in E as (_ & _ & _ & Hx & _). lia.
Qed.

(** C3. In every call of [Poll], each call of [check] that returned a non-nil
    error is followed by the warning that carries this error and then by the
    loop condition, evaluated again: the history of a call that has returned
    or panicked never ends on the warning.  The error [Poll] returns is nil,
    and then the last call of [check] returned [(true, nil)], or [ErrAborted]
    with the root context fired, or the operation context's own error with
    that context fired: never the predicate's.  And a pass of the loop in
    which [check] returns a non-nil error ends in [continue], with the
    warning as its last event. *)
Theorem check_errors_are_logged_and_swallowed fuel w p ctx t0 o f :
  Poll fuel w p ctx t0 = (o, f) ->
  failures_handled (still_running o) (history f) /\
  (forall took err, o = Returned took err ->
     (err = None /\
      exists k c d,
        S k = calls f /\ In (Checked k c d true None) (trace f)) \/
     (err = Some ErrAborted /\ Done (rootCtx p) (now f) = true) \/
     (err = Some (err_value ctx) /\ Done ctx (now f) = true)) /\
  (forall g e,
     Err (rootCtx (pl g)) (t_cond_root w g) = None ->
     Err ctx (t_cond_ctx w g) = None ->
     snd (the_select w g) = CaseTick -> 0 < interval (pl g) ->
     cr_err (the_run w g) = Some e ->
     exists g',
       loop_iter w ctx g = Continue g' /\
       trace g' = Logged (LogCheckFailed e) :: checked_events w g ++ trace g).
Proof.
  intros HP. apply Poll_loop in HP as (Ho & Ht & _ & Hn & Hc & _).
  split; [|split].
  - unfold history. rewrite Ht, <- Ho.
    apply failures_handled_loop. cbn. tauto.
  - intros took err ->. rewrite Hn, Ht, Hc.
    destruct (loop_result_sources w p ctx fuel
                (enter p t0 (mkTicker 1 (t0 + 1) false)) eq_refl eq_refl
                took err Ho)
      as [(H1 & H2 & _)|[H|(H1 & H2 & _)]]; auto.
  - apply failed_pass_continues.
Qed.

(** The run of [failing_env]: three failed calls, each one logged, and the
    return on the deadline; and its second pass, from the tick at 11. *)
Lemma check_errors_are_logged_and_swallowed_witness :
  failures_handled false
    (history (snd (Poll 5 failing_env (New Background 10) deadline_ctx 0))) /\
  In (Logged (LogCheckFailed (ErrOther "unavailable")))
    (history (snd (Poll 5 failing_env (New Background 10) deadline_ctx 0))) /\
  fst (Poll 5 failing_env (New Background 10) deadline_ctx 0)
    = Returned 31 (Some DeadlineExceeded) /\
  (Some DeadlineExceeded = Some (err_value deadline_ctx) /\
   Done deadline_ctx
     (now (snd (Poll 5 failing_env (New Background 10) deadline_ctx 0)))
     = true) /\
  exists g',
    loop_iter failing_env deadline_ctx (second_pass (New Background 10))
      = Continue g' /\
    trace g' =
      Logged (LogCheckFailed (ErrOther "unavailable"))
      :: checked_events failing_env (second_pass (New Background 10)) ++ [].
Proof.
  assert (HP : Poll 5 failing_env (New Background 10) deadline_ctx 0 =
               (Returned 31 (Some DeadlineExceeded),
                snd (Poll 5 failing_env (New Background 10) deadline_ctx 0)))
    by (vm_compute; reflexivity).
  destruct (check_errors_are_logged_and_swallowed 5 failing_env
              (New Background 10) deadline_ctx 0 _ _ HP) as (H1 & H2 & H3).
  split; [exact H1|].
  split; [vm_compute; tauto|]. split; [vm_compute; reflexivity|].
  split.
  { destruct (H2 31 (Some DeadlineExceeded) eq_refl) as [[H _]|[[H _]|H]];
      [discriminate H|discriminate H|exact H]. }
  apply (H3 (second_pass (New Background 10)) (ErrOther "unavailable"));
    reflexivity.
Defined.

(** A failure that is not followed by its warning is not handled. *)
Example unlogged_failure_is_not_handled :
  ~ failures_handled true
      [Checked 0 1 1 false (Some Canceled); RootErr AtCondRoot 1 None].
Proof. cbn. tauto. Qed.

(** Nor is one after whose warning the call is over, or goes on to anything
    but the loop condition. *)
Example failure_ending_the_call_is_not_handled :
  ~ failures_handled false
      [Checked 0 1 1 false (Some Canceled); Logged (LogCheckFailed Canceled)] /\
  ~ failures_handled false
      [Checked 0 1 1 false (Some Canceled); Logged (LogCheckFailed Canceled);
       CtxErr AtPostCtx 1 None; RootErr AtPostRoot 1 None].
Proof. cbn. split; intros H; decompose [and] H; try discriminate; assumption. Qed.

(** ** The root context during the wait *)

Lemma not_fired_before c r t : fires_at c = Some r -> t < r -> Err c t = None.
Proof.
  intros Hr Hlt. destruct (Err c t) eqn:E; [|reflexivity].
  assert (Hd : Done c t = true) by (unfold Done; now rewrite E).
  apply Done_fires in Hd as (r' & Hr' & Hle). rewrite Hr in Hr'.
  injection Hr' as <-. lia.
Qed.

Lemma woke_events_no_check w f c e :
  In e (woke_events w f c) -> is_check e = false.
Proof.
  unfold woke_events. cbn.
  intros [<-|[<-|[<-|[<-|[]]]]]; reflexivity.
Qed.

(** Splitting a history at an event that cannot be in its older part. *)
Lemma history_split (post pre : list Event) before e after :
  rev (post ++ pre) = before ++ e :: after ->
  ~ In e pre ->
  forall e', In e' after -> In e' post.
Proof.
  rewrite rev_app_distr. intros Heq Hpre e' Hin.
  apply in_rev.
  apply app_eq_app in Heq as [l [[H1 H2]|[H1 H2]]].
  - destruct l as [|x l].
    + cbn in H2. rewrite <- H2. now right.
    + exfalso. apply Hpre. injection H2 as <- _.
      apply in_rev. rewrite H1. apply in_or_app. right. now left.
  - rewrite H2. apply in_or_app. right. now right.
Qed.

(** C6. If the root context fires while the [select] of a pass is waiting for
    the tick, the pass ends there and then with [ErrAborted] and without a
    call of [check]; and in every run of [Poll] no call of [check] comes
    after an event in which the root context was found fired. *)
Theorem root_signal_stops_checking w ctx :
  (forall f r,
     Err ctx (t_cond_ctx w f) = None ->
     fires_at (rootCtx (pl f)) = Some r ->
     t_select w f < r < tk_next (tc f) ->
     exists f',
       loop_iter w ctx f =
         Return (Since (start f) (r + L w f AtReturn)) (Some ErrAborted) f' /\
       calls f' = calls f /\
       trace f' = Woke r CaseRootDone :: Waiting (t_select w f)
                  :: CtxErr AtCondCtx (t_cond_ctx w f) None
                  :: RootErr AtCondRoot (t_cond_root w f) None :: trace f) /\
  (forall fuel p t0 o f,
     Poll fuel w p ctx t0 = (o, f) ->
     forall before e after,
       history f = before ++ e :: after ->
       root_seen_fired e = true ->
       forall e', In e' after -> is_check e' = false).
Proof.
  split.
  - intros f r Hctx Hr Hwait.
    pose proof (instants_mono w f) as Hm.
    pose proof (the_select_spec w f) as (Hw & Htick & _).
    assert (Hwoke : t_woke w f = r)
      by (rewrite Hw; unfold fires_within; rewrite Hr; lia).
    assert (Hroot : Err (rootCtx (pl f)) (t_cond_root w f) = None)
      by (apply (not_fired_before _ r); [assumption|lia]).
    destruct (loop_iter w ctx f) as [f'|f'|took err f'|f'] eqn:E.
    + apply loop_iter_Continue in E as (_ & _ & Hc & _). apply Htick in Hc. lia.
    + apply loop_iter_Break in E
        as (_ & _ & _ & _ & [(e & He & _)|(e & _ & He & _)]); congruence.
    + apply loop_iter_Return in E
        as (_ & _ & _ & _ & -> &
            [(-> & _ & Hn & Hc & Htr)|(_ & Hc & _)]).
      * exists f'. rewrite Hn, Hwoke. split; [reflexivity|].
        split; [exact Hc|]. rewrite Htr. unfold woke_events.
        now rewrite Hwoke.
      * apply Htick in Hc. lia.
    + apply loop_iter_Panic in E as (_ & _ & Hc & _). apply Htick in Hc. lia.
  - intros fuel p t0 o f HP before e after Hh He e' Hin.
    apply Poll_loop in HP as (_ & Ht & _).
    unfold history in Hh. rewrite Ht in Hh. clear Ht.
    revert Hh.
    apply (loop_rule w ctx
             (fun g => forall x, In x (trace g) -> root_seen_fired x = false)
             (fun _ g => rev (trace g) = before ++ e :: after ->
                         is_check e' = false)).
    + intros g g' Hg E x.
      apply loop_iter_Continue in E
        as (_ & _ & _ & _ & _ & _ & _ & _ & _ & _ & _ & Htr).
      rewrite Htr. unfold checked_events, woke_events.
      destruct (cr_err (the_run w g)); cbn;
        intros Hx; repeat (destruct Hx as [<-|Hx]; [reflexivity|]); auto.
    + intros g Hg Hh.
      pose proof (history_split [] (trace g) before e after Hh) as H.
      exfalso. apply (H ltac:(intros Hx; apply Hg in Hx; congruence) e' Hin).
    + intros g g' Hg E Hh.
      destruct (after_loop_spec w ctx g') as (_ & _ & _ & _ & _ & _ & Htr).
      assert (Hnot : ~ In e (trace g))
        by (intros Hx; apply Hg in Hx; congruence).
      apply loop_iter_Break in E
        as (_ & _ & _ & _ & [(x & _ & _ & Htr')|(x & _ & _ & _ & Htr')]);
        rewrite Htr, Htr' in Hh;
        match type of Hh with
        | rev (?a :: ?b :: ?c :: ?d :: trace g) = _ =>
            pose proof (history_split [a; b; c; d] (trace g) before e after
                          Hh Hnot e' Hin) as H
        | rev (?a :: ?b :: ?c :: trace g) = _ =>
            pose proof (history_split [a; b; c] (trace g) before e after
                          Hh Hnot e' Hin) as H
        end;
        cbn in H; repeat (destruct H as [<-|H]; [reflexivity|]);
        contradiction.
    + intros g took err g' Hg E Hh.
      assert (Hnot : ~ In e (trace g))
        by (intros Hx; apply Hg in Hx; congruence).
      apply loop_iter_Return in E
        as (_ & _ & _ & _ & _ &
            [(_ & _ & _ & _ & Htr)|(_ & _ & _ & _ & Herr & _ & _ & Htr)]).
      * rewrite Htr in Hh.
        apply (woke_events_no_check w g CaseRootDone).
        exact (history_split _ _ _ _ _ Hh Hnot e' Hin).
      * exfalso. rewrite Htr in Hh.
        refine (history_split [] _ before e after Hh _ e' Hin).
        unfold checked_events, woke_events. rewrite Herr. cbn.
        intros Hx.
        repeat (destruct Hx as [<-|Hx]; [discriminate|]). auto.
    + intros g g' Hg E Hh.
      assert (Hnot : ~ In e (trace g))
        by (intros Hx; apply Hg in Hx; congruence).
      apply loop_iter_Panic in E as (_ & _ & _ & _ & _ & _ & Htr).
      rewrite Htr in Hh.
      apply (woke_events_no_check w g CaseTick).
      exact (history_split _ _ _ _ _ Hh Hnot e' Hin).
    + intros x [<-|[]]. reflexivity.
Qed.

(** The root context fires at 5 while the second pass waits for the tick due
    at 11; and in a run in which the root context fires during the first call
    of [check], what follows its discovery at 9 is no call of [check]. *)
Lemma root_signal_stops_checking_witness :
  (exists f',
     loop_iter idle_env deadline_ctx
       (second_pass (New (mkContext (Some 5) Canceled) 10))
     = Return 5 (Some ErrAborted) f' /\ calls f' = 1%nat) /\
  history (snd (Poll 3 slow_env early_root deadline_ctx 0)) =
    [Logged (LogStart 10); RootErr AtCondRoot 0 None; CtxErr AtCondCtx 0 None;
     Waiting 0; Woke 1 CaseTick; TickerReset 1 10; Checked 0 1 9 false None]
    ++ RootErr AtCondRoot 9 (Some Canceled)
    :: [CtxErr AtPostCtx 9 None; RootErr AtPostRoot 9 (Some Canceled)] /\
  (forall e', In e' [CtxErr AtPostCtx 9 None; RootErr AtPostRoot 9 (Some Canceled)] ->
              is_check e' = false).
Proof.
  destruct (root_signal_stops_checking idle_env deadline_ctx) as [Ha _].
  destruct (root_signal_stops_checking slow_env deadline_ctx) as [_ Hb].
  assert (Hh : history (snd (Poll 3 slow_env early_root deadline_ctx 0)) =
    [Logged (LogStart 10); RootErr AtCondRoot 0 None; CtxErr AtCondCtx 0 None;
     Waiting 0; Woke 1 CaseTick; TickerReset 1 10; Checked 0 1 9 false None]
    ++ RootErr AtCondRoot 9 (Some Canceled)
    :: [CtxErr AtPostCtx 9 None; RootErr AtPostRoot 9 (Some Canceled)])
    by (vm_compute; reflexivity).
  split; [|split; [exact Hh|]].
  - destruct (Ha (second_pass (New (mkContext (Some 5) Canceled) 10)) 5)
      as (f' & E & Hc & _);
      [reflexivity|reflexivity|split; reflexivity|].
    exists f'. split; [exact E|exact Hc].
  - exact (Hb 3%nat early_root 0 _ _ (surjective_pairing _) _ _ _ Hh eq_refl).
Defined.

(** ** What the wait waits for *)

Lemma last_woke_Continue w ctx f f' :
  loop_iter w ctx f = Continue f' -> last_woke (trace f') = Some (t_woke w f).
Proof.
  intros E. apply loop_iter_Continue in E
    as (_ & _ & _ & _ & _ & _ & _ & _ & _ & _ & _ & ->).
  now destruct (cr_err (the_run w f)).
Qed.

(** Under the tick case the wake-up is at the tick, or at the entry of the
    [select] when the tick was already there. *)
Lemma woke_on_tick w f :
  snd (the_select w f) = CaseTick ->
  t_woke w f = Z.max (t_select w f) (tk_next (tc f)).
Proof.
  intros Hc. destruct (the_select_spec w f) as (Hw & Ht & _).
  specialize (Ht Hc). revert Hw Ht. unfold fires_within.
  destruct (fires_at (rootCtx (pl f))); lia.
Qed.

(** C5 (amended). In a pass that reaches the [select], the wait ends at the
    next tick or when the root context fires, whichever comes first.  The
    operation context is not waited on: when it fires during the wait and the
    root context stays silent, the pass still wakes up on the tick, resets the
    ticker and calls [check] once more. *)
Theorem wait_ends_on_tick_or_root w ctx f :
  Err (rootCtx (pl f)) (t_cond_root w f) = None ->
  Err ctx (t_cond_ctx w f) = None ->
  last_woke (trace (frame_of (loop_iter w ctx f))) =
    Some (Z.max (t_select w f)
            (fires_within (rootCtx (pl f)) (tk_next (tc f)))) /\
  (forall r,
     fires_at ctx = Some r ->
     t_select w f < r < tk_next (tc f) ->
     (forall r', fires_at (rootCtx (pl f)) = Some r' -> tk_next (tc f) < r') ->
     0 < interval (pl f) ->
     t_woke w f = tk_next (tc f) /\
     calls (frame_of (loop_iter w ctx f)) = S (calls f) /\
     In (Checked (calls f) (t_call w f) (t_ret w f)
           (cr_done (the_run w f)) (cr_err (the_run w f)))
        (trace (frame_of (loop_iter w ctx f)))).
Proof.
  intros Hroot Hctx.
  pose proof (the_select_spec w f) as (Hw & Htick & Hdone).
  split.
  - rewrite <- Hw.
    destruct (loop_iter w ctx f) as [f'|f'|took err f'|f'] eqn:E; cbn [frame_of].
    + now apply last_woke_Continue in E.
    + apply loop_iter_Break in E
        as (_ & _ & _ & _ & [(e & He & _)|(e & _ & He & _)]); congruence.
    + apply loop_iter_Return in E
        as (_ & _ & _ & _ & _ &
            [(_ & _ & _ & _ & ->)|(_ & _ & _ & _ & He & _ & _ & ->)]);
        reflexivity.
    + apply loop_iter_Panic in E as (_ & _ & _ & _ & _ & _ & ->). reflexivity.
  - intros r Hr Hwait Hsilent Hpos.
    assert (Hwoke : t_woke w f = tk_next (tc f)).
    { rewrite Hw. unfold fires_within.
      destruct (fires_at (rootCtx (pl f))) as [r'|];
        [specialize (Hsilent r' eq_refl)|]; lia. }
    assert (Hcase : snd (the_select w f) = CaseTick).
    { destruct (snd (the_select w f)); [|reflexivity].
      specialize (Hdone eq_refl). apply Done_fires in Hdone as (r' & Hr' & Hle).
      specialize (Hsilent r' Hr'). lia. }
    split; [exact Hwoke|].
    destruct (loop_iter w ctx f) as [f'|f'|took err f'|f'] eqn:E; cbn [frame_of].
    + apply loop_iter_Continue in E
        as (_ & _ & _ & _ & _ & _ & _ & _ & _ & _ & Hc & ->).
      split; [exact Hc|]. apply in_or_app. right. now left.
    + apply loop_iter_Break in E
        as (_ & _ & _ & _ & [(e & He & _)|(e & _ & He & _)]); congruence.
    + apply loop_iter_Return in E
        as (_ & _ & _ & _ & _ &
            [(_ & Hc & _)|(_ & _ & _ & _ & _ & _ & Hc & ->)]).
      * congruence.
      * split; [exact Hc|]. right. now left.
    + apply loop_iter_Panic in E as (_ & _ & _ & Hle & _). lia.
Qed.

(** The operation context fires at 5 while the second pass waits for the tick
    due at 11; the root context never fires. *)
Lemma wait_ends_on_tick_or_root_witness :
  last_woke (trace (frame_of
    (loop_iter idle_env (mkContext (Some 5) DeadlineExceeded)
       (second_pass (New Background 10))))) = Some 11 /\
  In (Checked 1 11 11 false None)
     (trace (frame_of
        (loop_iter idle_env (mkContext (Some 5) DeadlineExceeded)
           (second_pass (New Background 10))))).
Proof.
  destruct (wait_ends_on_tick_or_root idle_env
              (mkContext (Some 5) DeadlineExceeded)
              (second_pass (New Background 10)) eq_refl eq_refl) as [H1 H2].
  split; [exact H1|].
  destruct (H2 5 eq_refl) as (_ & _ & H3);
    [split; reflexivity|discriminate|reflexivity|exact H3].
Defined.

(** C5 (as stated) fails: the operation context fires at 5, during the wait
    of the second pass, and the wait lasts until the tick at 11; seen from
    outside, a deadline at 25 is answered at 31, after one more call of
    [check]. *)
Lemma wait_ends_on_either_signal_counterexample :
  last_woke (trace (frame_of
    (loop_iter idle_env (mkContext (Some 5) DeadlineExceeded)
       (second_pass (New Background 10))))) = Some 11 /\
  fst (Poll 5 idle_env (New Background 10) deadline_ctx 0)
    = Returned 31 (Some DeadlineExceeded) /\
  In (Checked 3 31 31 false None)
     (trace (snd (Poll 5 idle_env (New Background 10) deadline_ctx 0))) /\
  ~ wait_ends_on_either_signal.
Proof.
  split; [reflexivity|]. split; [vm_compute; reflexivity|].
  split; [vm_compute; tauto|].
  intros H.
  specialize (H idle_env (mkContext (Some 5) DeadlineExceeded)
                (second_pass (New Background 10)) eq_refl eq_refl).
  vm_compute in H. discriminate.
Qed.

(** ** When the calls of [check] happen *)

Lemma in_checked_events w g k c d b e :
  In (Checked k c d b e) (checked_events w g) ->
  k = calls g /\ c = t_call w g /\ d = t_ret w g.
Proof.
  unfold checked_events, woke_events. cbn.
  intros [H|[H|[H|[H|[H|[H|[]]]]]]]; try discriminate.
  injection H as <- <- <- _ _. auto.
Qed.

Lemma not_in_woke_events w g cs k c d b e :
  ~ In (Checked k c d b e) (woke_events w g cs).
Proof.
  unfold woke_events. cbn. intros [H|[H|[H|[H|[]]]]]; discriminate.
Qed.

Lemma tick_left_stale_after w g : tick_left w g = stale_after w (iter g).
Proof.
  unfold tick_left, stale_after, t_reset, L, Lag. f_equal.
  destruct (Z.ltb_spec (t_woke w g)
              (t_woke w g + Z.of_N (lag w AtReset (iter g))));
    destruct (Z.ltb_spec 0 (Z.of_N (lag w AtReset (iter g))));
    try reflexivity; lia.
Qed.

Section CheckTimes.
Variables (w : Env) (p : poller) (ctx : Context) (t0 : Time).

Lemma call_time_on_tick g :
  snd (the_select w g) = CaseTick ->
  t_call w g =
  Z.max (tk_next (tc g))
        (now g + Lag w AtCondRoot (iter g) + Lag w AtCondCtx (iter g)
               + Lag w AtSelect (iter g))
  + Lag w AtReset (iter g) + Lag w AtCheck (iter g).
Proof.
  intros Hc. pose proof (woke_on_tick w g Hc) as Hw.
  unfold t_call, t_reset. rewrite Hw.
  unfold t_select, t_cond_ctx, t_cond_root, L, Lag. lia.
Qed.

Lemma one_more_ok g tr :
  at_head w p t0 g -> snd (the_select w g) = CaseTick -> one_more w g tr ->
  first_ok w t0 tr /\ next_ok w p tr.
Proof.
  intros (Hi & Hp & Hlt & H0 & Hlast & H1 & H2) Hc Hm.
  pose proof (call_time_on_tick g Hc) as Hcall. rewrite Hi in Hcall.
  split.
  - intros c d b e Hin. apply Hm in Hin as [(Hk & -> & _)|Hin]; [|eauto].
    destruct (H0 (eq_sym Hk)) as [Htk Hn].
    rewrite Hcall, Htk, Hn, <- Hk. reflexivity.
  - intros k c1 d1 b1 e1 c2 d2 b2 e2 Ha Hb.
    apply Hm in Ha as [(Hk1 & _ & _)|Ha];
      apply Hm in Hb as [(Hk2 & -> & _)|Hb].
    + lia.
    + apply Hlt in Hb. lia.
    + destruct (Hlast _ _ _ _ _ Ha Hk2) as [Htk Hn].
      rewrite Hcall, Htk, Hn, <- Hk2. reflexivity.
    + eauto.
Qed.

Lemma no_more_ok g tr :
  at_head w p t0 g ->
  (forall k c d b e, In (Checked k c d b e) tr ->
                     In (Checked k c d b e) (trace g)) ->
  first_ok w t0 tr /\ next_ok w p tr.
Proof.
  intros (_ & _ & _ & _ & _ & H1 & H2) Hm. split.
  - intros c d b e Hin. eauto.
  - intros k c1 d1 b1 e1 c2 d2 b2 e2 Ha Hb. eauto.
Qed.

Lemma at_head_Continue g g' :
  at_head w p t0 g -> loop_iter w ctx g = Continue g' -> at_head w p t0 g'.
Proof.
  intros Hg E. pose proof Hg as (Hi & Hp & Hlt & H0 & Hlast & H1 & H2).
  apply loop_iter_Continue in E
    as (_ & _ & Hc & _ & _ & Hpl & _ & Hn & Htk & Hit & Hca & Htr).
  assert (Hm : one_more w g (trace g')).
  { intros k c d b e Hin. rewrite Htr in Hin.
    apply in_app_or in Hin as [Hin|Hin].
    - destruct (cr_err (the_run w g)); [|contradiction].
      destruct Hin as [Hin|[]]. discriminate.
    - apply in_app_or in Hin as [Hin|Hin]; [|now right].
      left. now apply in_checked_events in Hin. }
  destruct (one_more_ok g (trace g') Hg Hc Hm) as [H1' H2'].
  split; [congruence|]. split; [congruence|]. split; [|split; [|split]].
  - intros k c d b e Hin. rewrite Hca.
    apply Hm in Hin as [(-> & _)|Hin]; [lia|]. apply Hlt in Hin. lia.
  - intros Hz. rewrite Hca in Hz. discriminate.
  - intros k c d b e Hin Hk. rewrite Hca in Hk. injection Hk as Hk.
    apply Hm in Hin as [(_ & -> & ->)|Hin].
    + split; [|exact Hn].
      rewrite Htk, Hk. unfold t_next_tick. rewrite tick_left_stale_after.
      rewrite Hp, Hi. unfold t_call, L, Lag. rewrite Hi.
      destruct (stale_after w (calls g)); lia.
    + apply Hlt in Hin. lia.
  - split; assumption.
Qed.

Lemma check_times_of_loop fuel g :
  at_head w p t0 g ->
  first_ok w t0 (trace (snd (loop fuel w ctx g))) /\
  next_ok w p (trace (snd (loop fuel w ctx g))).
Proof.
  apply (loop_rule w ctx (at_head w p t0)
           (fun _ g => first_ok w t0 (trace g) /\ next_ok w p (trace g))).
  - exact at_head_Continue.
  - intros f Hf. now destruct Hf as (_ & _ & _ & _ & _ & H1 & H2).
  - intros f f' Hf E. apply (no_more_ok f); [exact Hf|].
    destruct (after_loop_spec w ctx f') as (_ & _ & _ & _ & _ & _ & Htr).
    rewrite Htr.
    apply loop_iter_Break in E
      as (_ & _ & _ & _ & [(x & _ & _ & ->)|(x & _ & _ & _ & ->)]);
      intros k c d b e Hin; cbn in Hin;
      repeat (destruct Hin as [Hin|Hin]; [discriminate|]); exact Hin.
  - intros f took err f' Hf E.
    apply loop_iter_Return in E
      as (_ & _ & _ & _ & _ &
          [(_ & _ & _ & _ & Htr)|(_ & Hc & _ & _ & _ & _ & _ & Htr)]).
    + apply (no_more_ok f); [exact Hf|]. rewrite Htr.
      intros k c d b e Hin. apply in_app_or in Hin as [Hin|Hin]; [|exact Hin].
      now apply not_in_woke_events in Hin.
    + apply (one_more_ok f); [exact Hf|exact Hc|]. rewrite Htr.
      intros k c d b e [Hin|Hin]; [discriminate|].
      apply in_app_or in Hin as [Hin|Hin]; [|now right].
      left. now apply in_checked_events in Hin.
  - intros f f' Hf E. apply (no_more_ok f); [exact Hf|].
    apply loop_iter_Panic in E as (_ & _ & _ & _ & _ & _ & ->).
    intros k c d b e Hin. apply in_app_or in Hin as [Hin|Hin]; [|exact Hin].
    now apply not_in_woke_events in Hin.
Qed.

Lemma at_head_enter :
  at_head w p t0 (enter p t0 (mkTicker 1 (t0 + 1) false)).
Proof.
  unfold at_head, first_ok, next_ok. cbn.
  repeat split; try reflexivity;
    try (intros; repeat match goal with
                        | H : _ \/ _ |- _ => destruct H
                        | H : False |- _ => contradiction
                        | H : Logged _ = Checked _ _ _ _ _ |- _ => discriminate H
                        end).
Qed.

Lemma check_times_of_Poll fuel o f :
  Poll fuel w p ctx t0 = (o, f) ->
  (forall c d b e, In (Checked 0 c d b e) (trace f) ->
                   c = first_check_at w t0) /\
  (forall k c1 d1 b1 e1 c2 d2 b2 e2,
     In (Checked k c1 d1 b1 e1) (trace f) ->
     In (Checked (S k) c2 d2 b2 e2) (trace f) ->
     c2 = next_check_at w (interval p) k c1 d1).
Proof.
  intros HP. apply Poll_loop in HP as (_ & -> & _).
  exact (check_times_of_loop fuel _ at_head_enter).
Qed.
End CheckTimes.

Lemma quiet_check_times w iv t0 :
  quiet w ->
  first_check_at w t0 = t0 + 1 /\
  forall k c1 d1, next_check_at w iv k c1 d1 = Z.max (c1 + iv) d1.
Proof.
  intros Hq. unfold first_check_at, next_check_at, stale_after, Lag.
  split; [|intros k c1 d1]; rewrite !Hq; cbn [Z.of_N Z.ltb Z.compare];
    rewrite ?Bool.andb_false_r; lia.
Qed.

(** C2 (amended). In every run of [Poll] the first call of [check] starts as
    soon as the first tick of the 1ns ticker has been received, without
    waiting for an interval; every later call starts when the next tick has
    been received, which is once that tick is there and the previous call is
    over.  The ticker is reset to the interval just before the previous call
    started, so the tick is there one interval after that reset; or at once,
    when the ticker sent a tick between the receive and the reset and the
    reset left it in the channel (Go before 1.23), in which case the next call
    follows the return of the previous one without any wait.  Without
    scheduling delays no tick is left behind: the first call starts 1ns after
    the start, and every later call one interval after the previous call
    started, or when the previous call returned if that is later. *)
Theorem checks_follow_the_ticker fuel w p ctx t0 o f :
  Poll fuel w p ctx t0 = (o, f) ->
  (forall c d b e,
     In (Checked 0 c d b e) (trace f) -> c = first_check_at w t0) /\
  (forall k c1 d1 b1 e1 c2 d2 b2 e2,
     In (Checked k c1 d1 b1 e1) (trace f) ->
     In (Checked (S k) c2 d2 b2 e2) (trace f) ->
     c2 = next_check_at w (interval p) k c1 d1) /\
  (quiet w ->
   first_check_at w t0 = t0 + 1 /\
   forall k c1 d1,
     next_check_at w (interval p) k c1 d1 = Z.max (c1 + interval p) d1) /\
  (forall k c1 d1,
     stale_after w k = false ->
     next_check_at w (interval p) k c1 d1 =
       Z.max (c1 - Lag w AtCheck k + interval p)
             (d1 + Lag w AtCondRoot (S k) + Lag w AtCondCtx (S k)
                 + Lag w AtSelect (S k))
       + Lag w AtReset (S k) + Lag w AtCheck (S k)) /\
  (forall k c1 d1,
     stale_after w k = true -> c1 <= d1 ->
     next_check_at w (interval p) k c1 d1 =
       d1 + Lag w AtCondRoot (S k) + Lag w AtCondCtx (S k)
          + Lag w AtSelect (S k) + Lag w AtReset (S k) + Lag w AtCheck (S k)).
Proof.
  intros HP. destruct (check_times_of_Poll w p ctx t0 fuel o f HP) as [H1 H2].
  split; [exact H1|]. split; [exact H2|].
  split; [apply quiet_check_times|].
  split; intros k c1 d1 Hs; unfold next_check_at; rewrite Hs.
  - reflexivity.
  - intros Hle. unfold Lag. lia.
Qed.

(** With an interval of 10 and calls that take 4: the calls start at 1, 11 and
    21.  When every reset takes 2ns and leaves a tick behind: the first call
    runs from 3 to 7 and the second starts at 9. *)
Lemma checks_follow_the_ticker_witness :
  In (Checked 0 1 5 false None)
     (trace (snd (Poll 5 deadline_env (New Background 10) deadline_ctx 0))) /\
  In (Checked 1 11 15 false None)
     (trace (snd (Poll 5 deadline_env (New Background 10) deadline_ctx 0))) /\
  1 = first_check_at deadline_env 0 /\
  11 = next_check_at deadline_env 10 0 1 5 /\
  next_check_at deadline_env 10 0 1 5 = Z.max (1 + 10) 5 /\
  In (Checked 0 3 7 false None)
     (trace (snd (Poll 5 hasty_env (New Background 10) deadline_ctx 0))) /\
  In (Checked 1 9 13 false None)
     (trace (snd (Poll 5 hasty_env (New Background 10) deadline_ctx 0))) /\
  9 = next_check_at hasty_env 10 0 3 7 /\
  next_check_at hasty_env 10 0 3 7 = 7 + 0 + 0 + 0 + 2 + 0 /\
  next_check_at deadline_env 10 0 1 5
    = Z.max (1 - 0 + 10) (5 + 0 + 0 + 0) + 0 + 0.
Proof.
  assert (Ha : In (Checked 0 1 5 false None)
     (trace (snd (Poll 5 deadline_env (New Background 10) deadline_ctx 0))))
    by (vm_compute; tauto).
  assert (Hb : In (Checked 1 11 15 false None)
     (trace (snd (Poll 5 deadline_env (New Background 10) deadline_ctx 0))))
    by (vm_compute; tauto).
  assert (Hc : In (Checked 0 3 7 false None)
     (trace (snd (Poll 5 hasty_env (New Background 10) deadline_ctx 0))))
    by (vm_compute; tauto).
  assert (Hd : In (Checked 1 9 13 false None)
     (trace (snd (Poll 5 hasty_env (New Background 10) deadline_ctx 0))))
    by (vm_compute; tauto).
  destruct (checks_follow_the_ticker 5 deadline_env (New Background 10)
              deadline_ctx 0 _ _ (surjective_pairing _))
    as (H1 & H2 & H3 & H4 & _).
  destruct (checks_follow_the_ticker 5 hasty_env (New Background 10)
              deadline_ctx 0 _ _ (surjective_pairing _))
    as (_ & H2' & _ & _ & H5').
  split; [exact Ha|]. split; [exact Hb|].
  split; [exact (H1 _ _ _ _ Ha)|].
  split; [exact (H2 _ _ _ _ _ _ _ _ _ Ha Hb)|].
  split; [exact (proj2 (H3 (fun _ _ => eq_refl)) 0%nat 1 5)|].
  split; [exact Hc|]. split; [exact Hd|].
  split; [exact (H2' _ _ _ _ _ _ _ _ _ Hc Hd)|].
  split; [apply (H5' 0%nat 3 7); [reflexivity|lia]|].
  apply (H4 0%nat 1 5). reflexivity.
Defined.

(** C2 (as stated) fails: with an interval of 10 and calls that take 4, the
    first call returns at 5 and the second starts at 11, not at 15. *)
Lemma checks_wait_after_completion_counterexample :
  In (Checked 0 1 5 false None)
     (trace (snd (Poll 5 deadline_env (New Background 10) deadline_ctx 0))) /\
  In (Checked 1 11 15 false None)
     (trace (snd (Poll 5 deadline_env (New Background 10) deadline_ctx 0))) /\
  11 <> 5 + interval (New Background 10) /\
  ~ checks_wait_after_completion.
Proof.
  assert (Ha : In (Checked 0 1 5 false None)
     (trace (snd (Poll 5 deadline_env (New Background 10) deadline_ctx 0))))
    by (vm_compute; tauto).
  assert (Hb : In (Checked 1 11 15 false None)
     (trace (snd (Poll 5 deadline_env (New Background 10) deadline_ctx 0))))
    by (vm_compute; tauto).
  split; [exact Ha|]. split; [exact Hb|]. split; [discriminate|].
  intros H.
  destruct (H 5%nat deadline_env (New Background 10) deadline_ctx 0
              (fun _ _ => eq_refl) eq_refl) as [_ H2].
  specialize (H2 _ _ _ _ _ _ _ _ _ Ha Hb). discriminate.
Qed.

(** ** The poller is only read *)

Lemma Poll_pl fuel w p ctx t0 : pl (snd (Poll fuel w p ctx t0)) = p.
Proof. rewrite Poll_unfold, run_deferred_pl. apply loop_pl. Qed.

Lemma pass_mem w ctx mem fl : fst (pass w ctx mem fl) = mem.
Proof.
  destruct fl as [f| | |]; try reflexivity.
  cbn [pass fst]. now rewrite (proj1 (loop_iter_frame w ctx (with_pl mem f))).
Qed.

(** C8. [Poll] leaves the poller it is called on as it found it: after one
    call, after any number of calls in a row (each of which therefore behaves
    as if it were the only one), and during two calls whose passes are
    interleaved in any order, each of which proceeds exactly as it would
    alone. *)
Theorem poller_is_never_modified :
  (forall fuel w p ctx t0,
     rootCtx (pl (snd (Poll fuel w p ctx t0))) = rootCtx p /\
     interval (pl (snd (Poll fuel w p ctx t0))) = interval p) /\
  (forall p cs,
     fst (poll_all p cs) = p /\
     snd (poll_all p cs) =
       map (fun c => fst (Poll (c_fuel c) (c_env c) p (c_ctx c) (c_t0 c))) cs) /\
  (forall sched w1 ctx1 w2 ctx2 p a b,
     interleave sched w1 ctx1 w2 ctx2 p a b =
       (p, passes (turns true sched) w1 ctx1 p a,
           passes (turns false sched) w2 ctx2 p b)).
Proof.
  split; [|split].
  - intros. now rewrite Poll_pl.
  - intros p cs. induction cs as [|c cs [IH1 IH2]]; [split; reflexivity|].
    cbn [poll_all fst snd map]. rewrite Poll_pl. split; congruence.
  - intros sched w1 ctx1 w2 ctx2 p. induction sched as [|[|] sched IH];
      intros a b; cbn [interleave turns filter Bool.eqb List.length passes].
    + reflexivity.
    + rewrite pass_mem. apply IH.
    + rewrite pass_mem. apply IH.
Qed.

(** ** Beyond the claims: panics, cancelled contexts, elapsed time *)

(** X1. With a positive interval, such as the command line's default of one
    second, nothing [Poll] does itself panics: the ticker is created with a
    period of 1ns and only ever reset to the interval.  (The contexts are
    taken to be non-nil and the calls of [check] to return: a panic raised
    inside the predicate is not caught by [Poll].) *)
Theorem positive_interval_never_panics fuel w p ctx t0 :
  0 < interval p -> fst (Poll fuel w p ctx t0) <> Panicked.
Proof.
  intros Hpos. rewrite Poll_unfold, run_deferred_fst.
  apply (loop_rule w ctx (fun g => pl g = p) (fun o _ => o <> Panicked));
    try discriminate; try reflexivity.
  - intros g g' Hg E. apply loop_iter_pl in E. cbn in E. congruence.
  - intros g g' Hg E. apply loop_iter_Panic in E as (_ & _ & _ & Hle & _).
    rewrite Hg in Hle. lia.
Qed.

Lemma positive_interval_never_panics_witness :
  fst (Poll 3 slow_env (New Background Second) deadline_ctx 0) <> Panicked.
Proof.
  apply (positive_interval_never_panics 3 slow_env (New Background Second)
           deadline_ctx 0).
  reflexivity.
Defined.

(** X2. A call of [Poll] made when the root context or the operation context has
    already fired returns on the first evaluation of the loop condition: it
    never waits and never calls [check].  The error is [ErrAborted] when the
    root context had fired, and otherwise the operation context's error or,
    should the root context fire before the read after the loop,
    [ErrAborted]. *)
Theorem fired_before_the_call fuel w p ctx t0 :
  Done (rootCtx p) t0 = true \/ Done ctx t0 = true ->
  calls (snd (Poll (S fuel) w p ctx t0)) = 0%nat /\
  (forall e, In e (trace (snd (Poll (S fuel) w p ctx t0))) ->
             is_check e = false /\ forall t, e <> Waiting t) /\
  exists took e,
    fst (Poll (S fuel) w p ctx t0) = Returned took (Some e) /\
    (Done (rootCtx p) t0 = true -> e = ErrAborted) /\
    (e = ErrAborted \/ e = err_value ctx).
Proof.
  intros Hd. rewrite Poll_unfold.
  set (f0 := enter p t0 (mkTicker 1 (t0 + 1) false)).
  destruct (loop_iter_fired w ctx f0 Hd) as [f' E].
  cbn [loop]. rewrite E.
  destruct (after_loop_spec w ctx f') as (He & _ & _ & Hc & _ & _ & Htr).
  destruct (after_loop w ctx f') as [[took err] f''] eqn:Ea.
  cbn [fst snd] in *. unfold run_deferred. cbn [fst snd with_tc calls trace].
  pose proof E as E0.
  apply loop_iter_Break in E as (Hpl & _ & _ & Hc' & HB).
  assert (Hle : now f' <= t_post_ctx w f' (now f') /\
                t_post_ctx w f' (now f') <= t_post_root w f' (now f'))
    by (unfold_instants; lia).
  pose proof (instants_mono w f0) as Hm.
  split; [rewrite Hc, Hc'; reflexivity|]. split.
  - intros e Hin. rewrite Htr in Hin.
    destruct HB as [(x & _ & _ & Htr')|(x & _ & _ & _ & Htr')];
      rewrite Htr' in Hin; cbn in Hin;
      repeat (destruct Hin as [<-|Hin]; [split; [reflexivity|discriminate]|]);
      contradiction.
  - rewrite He. rewrite Hpl. cbn [pl f0 enter].
    destruct (Done (rootCtx p) (t_post_root w f' (now f'))) eqn:Hr.
    + exists took, ErrAborted. auto.
    + assert (Hn0 : t0 <= now f').
      { cbn [now f0 enter] in Hm.
        destruct HB as [(x & _ & -> & _)|(x & _ & _ & -> & _)]; lia. }
      assert (Hr0 : Done (rootCtx p) t0 = false).
      { destruct (Done (rootCtx p) t0) eqn:D; [|reflexivity].
        apply (Done_mono _ _ (t_post_root w f' (now f'))) in D; [congruence|lia]. }
      destruct Hd as [Hd|Hd]; [congruence|].
      apply (Done_mono _ _ (t_post_ctx w f' (now f'))) in Hd; [|lia].
      unfold Done in Hd.
      destruct (Err ctx (t_post_ctx w f' (now f'))) as [e|] eqn:Ee;
        [|discriminate].
      exists took, e. split; [reflexivity|]. split; [congruence|].
      right. exact (Err_value _ _ _ Ee).
Qed.

(** The operation context was cancelled at -5, before the call at 0. *)
Lemma fired_before_the_call_witness :
  calls (snd (Poll 3 slow_env (New Background Second)
                (mkContext (Some (-5)) Canceled) 0)) = 0%nat /\
  fst (Poll 3 slow_env (New Background Second)
         (mkContext (Some (-5)) Canceled) 0) = Returned 0 (Some Canceled).
Proof.
  split; [|vm_compute; reflexivity].
  apply (fired_before_the_call 2 slow_env (New Background Second)
           (mkContext (Some (-5)) Canceled) 0).
  right. reflexivity.
Defined.

(** The clock does not go back during a pass. *)
Lemma loop_iter_now w ctx f : now f <= now (frame_of (loop_iter w ctx f)).
Proof.
  pose proof (instants_mono w f) as Hm.
  destruct (loop_iter w ctx f) as [f'|f'|took err f'|f'] eqn:E; cbn [frame_of].
  - apply loop_iter_Continue in E as (_ & _ & _ & _ & _ & _ & _ & -> & _). lia.
  - apply loop_iter_Break in E
      as (_ & _ & _ & _ & [(e & _ & -> & _)|(e & _ & _ & -> & _)]); lia.
  - apply loop_iter_Return in E
      as (_ & _ & _ & _ & _ & [(_ & _ & -> & _)|(_ & _ & _ & _ & _ & -> & _)]);
      unfold L; lia.
  - revert E. destruct f as [p s n tk i k tr]. unfold_instants. proj_simpl.
    intros E. run_iter_in E.
    repeat break_match; try discriminate; injection E as <-; proj_simpl; lia.
Qed.

Lemma Since_nonneg t0 t :
  t0 <= t -> 0 <= Since t0 t /\ (t - t0 <= maxDuration -> Since t0 t = t - t0).
Proof.
  unfold Since, minDuration, maxDuration. intros H.
  assert (0 < 2 ^ 63) by (apply Z.pow_pos_nonneg; lia). lia.
Qed.

Lemma elapsed_facts fuel w p ctx t0 o f :
  Poll fuel w p ctx t0 = (o, f) ->
  t0 <= now f /\
  (forall took err, o = Returned took err ->
     took = Since t0 (now f) /\ 0 <= took /\
     (now f - t0 <= maxDuration -> took = now f - t0)) /\
  (forall k c d b e, In (Checked k c d b e) (trace f) ->
     t0 < c /\ c <= d /\ d <= now f).
Proof.
  intros HP. apply Poll_loop in HP as (Ho & Ht & _ & Hn & _ & _).
  rewrite Ht, Hn, <- Ho. clear.
  set (inside := fun g : Frame =>
         forall k c d b e, In (Checked k c d b e) (trace g) ->
           t0 < c /\ c <= d /\ d <= now g).
  set (r := loop fuel w ctx (enter p t0 (mkTicker 1 (t0 + 1) false))).
  cut (t0 <= now (snd r) /\ inside (snd r) /\
       forall took err, fst r = Returned took err ->
                        took = Since t0 (now (snd r))).
  { intros (H1 & H2 & H3). split; [exact H1|]. split; [|exact H2].
    intros took err Hr. rewrite (H3 took err Hr).
    split; [reflexivity|]. now apply Since_nonneg. }
  subst r.
  apply (loop_rule w ctx
           (fun g => start g = t0 /\ t0 <= now g /\ t0 < tk_next (tc g) /\
                     inside g)
           (fun o g => t0 <= now g /\ inside g /\
                       forall took err, o = Returned took err ->
                                        took = Since t0 (now g))).
  - intros g g' (Hs & Hn & Htk & Hin) E.
    pose proof (instants_mono w g) as Hm.
    apply loop_iter_Continue in E
      as (_ & _ & Hc & Hpos & _ & _ & Hs' & Hn' & Htk' & _ & _ & Htr).
    pose proof (proj2 (proj2 (next_tick_later w g Hpos)) Hc) as Hlater.
    apply (proj1 (proj2 (the_select_spec w g))) in Hc.
    split; [congruence|]. split; [lia|]. split; [lia|].
    intros k c d b e H. rewrite Htr in H.
    apply in_app_or in H as [H|H].
    { destruct (cr_err (the_run w g)); [|contradiction].
      destruct H as [H|[]]. discriminate. }
    apply in_app_or in H as [H|H].
    + apply in_checked_events in H as (_ & -> & ->). lia.
    + apply Hin in H. lia.
  - intros g (_ & Hn & _ & Hin). split; [exact Hn|]. split; [exact Hin|].
    discriminate.
  - intros g g' (Hs & Hn & _ & Hin) E.
    pose proof (loop_iter_now w ctx g) as Hmono. rewrite E in Hmono.
    cbn [frame_of] in Hmono.
    destruct (after_loop_spec w ctx g') as (_ & _ & Hs' & _ & Hn' & Ht & Htr).
    assert (Hle : now g' <= now (snd (after_loop w ctx g')))
      by (rewrite Hn'; unfold_instants; lia).
    apply loop_iter_Break in E as (_ & Hs'' & _ & _ & HB).
    split; [lia|]. split.
    + intros k c d b e H. rewrite Htr in H.
      assert (Hold : In (Checked k c d b e) (trace g)).
      { destruct HB as [(x & _ & _ & Htr')|(x & _ & _ & _ & Htr')];
          rewrite Htr' in H; cbn in H;
          repeat (destruct H as [H|H]; [discriminate|]); exact H. }
      apply Hin in Hold. lia.
    + intros took err Hr.
      assert (Hk : took = fst (fst (after_loop w ctx g'))) by congruence.
      rewrite Hk, Ht. congruence.
  - intros g took err g' (Hs & Hn & Htk & Hin) E.
    pose proof (loop_iter_now w ctx g) as Hmono. rewrite E in Hmono.
    cbn [frame_of] in Hmono.
    pose proof (instants_mono w g) as Hm.
    apply loop_iter_Return in E
      as (_ & _ & _ & Hs' & -> &
          [(_ & _ & Hn' & _ & Htr)|(_ & Hc & _ & _ & _ & Hn' & _ & Htr)]).
    + split; [lia|]. split.
      * intros k c d b e H. rewrite Htr in H.
        apply in_app_or in H as [H|H]; [now apply not_in_woke_events in H|].
        apply Hin in H. lia.
      * intros took' err' Hr. injection Hr as <- _. congruence.
    + split; [lia|]. split.
      * intros k c d b e H. rewrite Htr in H.
        destruct H as [H|H]; [discriminate|].
        apply in_app_or in H as [H|H].
        -- apply in_checked_events in H as (_ & -> & ->).
           apply (proj1 (proj2 (the_select_spec w g))) in Hc.
           unfold L in Hn'. lia.
        -- apply Hin in H. lia.
      * intros took' err' Hr. injection Hr as <- _. congruence.
  - intros g g' (Hs & Hn & _ & Hin) E.
    pose proof (loop_iter_now w ctx g) as Hmono. rewrite E in Hmono.
    cbn [frame_of] in Hmono.
    apply loop_iter_Panic in E as (_ & _ & _ & _ & _ & _ & Htr).
    split; [lia|]. split; [|discriminate].
    intros k c d b e H. rewrite Htr in H.
    apply in_app_or in H as [H|H]; [now apply not_in_woke_events in H|].
    apply Hin in H. lia.
  - split; [reflexivity|]. split; [cbn; lia|]. split; [cbn; lia|].
    intros k c d b e [H|[]]. discriminate.
Qed.

(** X3. The duration [Poll] returns is, on every path, the time from its start to
    its return (saturated at the largest [Duration]), and it is not negative;
    every call of [check] lies within it. *)
Theorem elapsed_spans_the_call fuel w p ctx t0 o f :
  Poll fuel w p ctx t0 = (o, f) ->
  t0 <= now f /\
  (forall took err, o = Returned took err ->
     took = Since t0 (now f) /\ 0 <= took /\
     (now f - t0 <= maxDuration -> took = now f - t0)) /\
  (forall k c d b e, In (Checked k c d b e) (trace f) ->
     t0 < c /\ c <= d /\ d <= now f).
Proof. apply elapsed_facts. Qed.

(** The run that ends on the deadline at 25, after three calls of 4ns. *)
Lemma elapsed_spans_the_call_witness :
  fst (Poll 5 deadline_env (New Background 10) deadline_ctx 0)
    = Returned 25 (Some DeadlineExceeded) /\
  25 = Since 0 (now (snd (Poll 5 deadline_env (New Background 10) deadline_ctx 0))) /\
  0 <= 25.
Proof.
  assert (Ho : fst (Poll 5 deadline_env (New Background 10) deadline_ctx 0)
               = Returned 25 (Some DeadlineExceeded)) by (vm_compute; reflexivity).
  split; [exact Ho|].
  destruct (elapsed_spans_the_call 5 deadline_env (New Background 10)
              deadline_ctx 0 _ _ (surjective_pairing _)) as (_ & H & _).
  destruct (H 25 (Some DeadlineExceeded) Ho) as (H1 & H2 & _).
  split; assumption.
Defined.

(** ** Beyond the claims: the sequence of calls *)

(** A [Reset] never puts the next tick before the one just received. *)
Lemma any_reset_gap w p g :
  pl g = p -> 0 < interval p -> snd (the_select w g) = CaseTick ->
  tk_next (tc g) + 0 <= t_next_tick w g.
Proof.
  intros Hp Hpos Hc. rewrite <- Hp in Hpos.
  pose proof (proj2 (proj2 (next_tick_later w g Hpos)) Hc). lia.
Qed.

(** When no [Reset] leaves a tick in the channel, it puts the next tick one
    interval later at least. *)
Lemma prompt_reset_gap w p :
  (forall i, stale w i = false) ->
  forall g,
    pl g = p -> 0 < interval p -> snd (the_select w g) = CaseTick ->
    tk_next (tc g) + interval p <= t_next_tick w g.
Proof.
  intros Hs g Hp Hpos Hc.
  apply (proj1 (proj2 (the_select_spec w g))) in Hc.
  unfold t_next_tick, tick_left. rewrite Hs, Hp. cbn [andb].
  unfold t_reset, L. lia.
Qed.

Lemma check_indices_app h h' :
  check_indices (h ++ h') = check_indices h ++ check_indices h'.
Proof. apply flat_map_app. Qed.

Section Orderly.
Variables (w : Env) (p : poller) (ctx : Context) (t0 : Time).

(** [gap] is a time that every [Reset] of the run puts between two ticks. *)
Variable gap : Duration.
Hypothesis Hgap : forall g,
  pl g = p -> 0 < interval p -> snd (the_select w g) = CaseTick ->
  tk_next (tc g) + gap <= t_next_tick w g.

(** A frame reached with one more call than [g], the one of the pass from
    [g], which woke up on the tick. *)
Lemma orderly_one_more g g' :
  orderly_calls gap t0 g ->
  t0 + 1 + Z.of_nat (calls g) * gap <= tk_next (tc g) ->
  snd (the_select w g) = CaseTick ->
  one_more w g (trace g') ->
  calls g' = S (calls g) ->
  t_ret w g <= now g' ->
  check_indices (history g') = check_indices (history g) ++ [calls g] ->
  orderly_calls gap t0 g'.
Proof.
  intros (Hidx & Hb & Hpairs) Htk Hc Hm Hcalls Hnow Hidx'.
  pose proof (instants_mono w g) as Hmono.
  apply (proj1 (proj2 (the_select_spec w g))) in Hc.
  split; [|split].
  - rewrite Hidx', Hidx, Hcalls. symmetry. apply seq_S.
  - intros k c d b e Hin. rewrite Hcalls.
    apply Hm in Hin as [(-> & -> & ->)|Hin].
    + repeat split; lia.
    + apply Hb in Hin. repeat split; lia.
  - intros j k cj dj bj ej ck dk bk ek Hlt Hj Hk.
    apply Hm in Hj as [(-> & _ & _)|Hj]; apply Hm in Hk as [(-> & -> & _)|Hk].
    + lia.
    + apply Hb in Hk. lia.
    + apply Hb in Hj. lia.
    + eauto.
Qed.

(** A frame reached without a further call. *)
Lemma orderly_no_more g g' :
  orderly_calls gap t0 g ->
  (forall k c d b e, In (Checked k c d b e) (trace g') ->
                     In (Checked k c d b e) (trace g)) ->
  calls g' = calls g -> now g <= now g' ->
  check_indices (history g') = check_indices (history g) ->
  orderly_calls gap t0 g'.
Proof.
  intros (Hidx & Hb & Hpairs) Hm Hcalls Hnow Hidx'.
  split; [|split].
  - congruence.
  - intros k c d b e Hin. apply Hm, Hb in Hin. rewrite Hcalls. repeat split; lia.
  - intros j k cj dj bj ej ck dk bk ek Hlt Hj Hk.
    apply Hm in Hj. apply Hm in Hk. eauto.
Qed.

Lemma orderly_loop fuel g :
  pl g = p ->
  t0 + 1 + Z.of_nat (calls g) * gap <= tk_next (tc g) ->
  orderly_calls gap t0 g ->
  orderly_calls gap t0 (snd (loop fuel w ctx g)).
Proof.
  intros Hp Htk Hg.
  apply (loop_rule w ctx
           (fun g => pl g = p /\
                     t0 + 1 + Z.of_nat (calls g) * gap <= tk_next (tc g) /\
                     orderly_calls gap t0 g)
           (fun _ g => orderly_calls gap t0 g)); [| | | | |auto].
  - clear g Hp Htk Hg. intros g g' (Hp & Htk & Hg) E.
    pose proof (instants_mono w g) as Hmono.
    apply loop_iter_Continue in E
      as (_ & _ & Hc & Hpos & _ & Hpl & _ & Hn & Htk' & _ & Hca & Htr).
    split; [congruence|]. split.
    + rewrite Hp in Hpos. pose proof (Hgap g Hp Hpos Hc) as Hge.
      rewrite Htk', Hca. lia.
    + apply (orderly_one_more g g' Hg Htk Hc); try assumption; try lia.
      * intros k c d b e Hin. rewrite Htr in Hin.
        apply in_app_or in Hin as [Hin|Hin].
        { destruct (cr_err (the_run w g)); [|contradiction].
          destruct Hin as [Hin|[]]. discriminate. }
        apply in_app_or in Hin as [Hin|Hin]; [|now right].
        left. now apply in_checked_events in Hin.
      * rewrite app_assoc in Htr. rewrite (history_app _ _ _ Htr).
        rewrite check_indices_app. f_equal.
        unfold checked_events, woke_events.
        now destruct (cr_err (the_run w g)).
  - intros f (_ & _ & H). exact H.
  - clear g Hp Htk Hg. intros g g' (Hp & Htk & Hg) E.
    pose proof (loop_iter_now w ctx g) as Hmono. rewrite E in Hmono.
    cbn [frame_of] in Hmono.
    destruct (after_loop_spec w ctx g') as (_ & _ & _ & Hca & Hn & _ & Htr).
    assert (Hle : now g' <= now (snd (after_loop w ctx g')))
      by (rewrite Hn; unfold_instants; lia).
    apply loop_iter_Break in E as (_ & _ & _ & Hca' & HB).
    apply (orderly_no_more g); try assumption; try lia; try congruence.
    + intros k c d b e H. rewrite Htr in H.
      destruct HB as [(x & _ & _ & Htr')|(x & _ & _ & _ & Htr')];
        rewrite Htr' in H; cbn in H;
        repeat (destruct H as [H|H]; [discriminate|]); exact H.
    + destruct HB as [(x & _ & _ & Htr')|(x & _ & _ & _ & Htr')];
        rewrite Htr' in Htr;
        match type of Htr with
        | _ = ?a :: ?b :: ?c :: ?d :: trace g =>
            apply (history_app [a; b; c; d]) in Htr
        | _ = ?a :: ?b :: ?c :: trace g =>
            apply (history_app [a; b; c]) in Htr
        end;
        rewrite Htr, check_indices_app; cbn; apply app_nil_r.
  - clear g Hp Htk Hg. intros g took err g' (Hp & Htk & Hg) E.
    pose proof (loop_iter_now w ctx g) as Hmono. rewrite E in Hmono.
    cbn [frame_of] in Hmono.
    apply loop_iter_Return in E
      as (_ & _ & _ & _ & _ &
          [(_ & _ & _ & Hca & Htr)|(_ & Hc & _ & _ & He & Hn & Hca & Htr)]).
    + apply (orderly_no_more g); try assumption.
      * intros k c d b e H. rewrite Htr in H.
        apply in_app_or in H as [H|H]; [now apply not_in_woke_events in H|].
        exact H.
      * rewrite (history_app _ _ _ Htr), check_indices_app.
        unfold woke_events. cbn. apply app_nil_r.
    + apply (orderly_one_more g g' Hg Htk Hc); try assumption.
      * intros k c d b e H. rewrite Htr in H.
        destruct H as [H|H]; [discriminate|].
        apply in_app_or in H as [H|H]; [|now right].
        left. now apply in_checked_events in H.
      * rewrite Hn. unfold L. lia.
      * apply (history_app (_ :: _)) in Htr. rewrite Htr, check_indices_app.
        f_equal.
  - clear g Hp Htk Hg. intros g g' (Hp & Htk & Hg) E.
    pose proof (loop_iter_now w ctx g) as Hmono. rewrite E in Hmono.
    cbn [frame_of] in Hmono.
    apply loop_iter_Panic in E as (_ & _ & _ & _ & _ & Hca & Htr).
    apply (orderly_no_more g); try assumption.
    + intros k c d b e H. rewrite Htr in H.
      apply in_app_or in H as [H|H]; [now apply not_in_woke_events in H|].
      exact H.
    + rewrite (history_app _ _ _ Htr), check_indices_app.
      unfold woke_events. cbn. apply app_nil_r.
Qed.

Lemma orderly_Poll fuel o f :
  Poll fuel w p ctx t0 = (o, f) -> orderly_calls gap t0 f.
Proof.
  intros HP. apply Poll_loop in HP as (_ & Ht & _ & Hn & Hc & _).
  pose proof (orderly_loop fuel (enter p t0 (mkTicker 1 (t0 + 1) false))
                eq_refl) as H.
  unfold orderly_calls, history in *. rewrite Ht, Hn, Hc. apply H.
  - cbn. lia.
  - cbn. split; [reflexivity|].
    split; [intros k c d b e [H'|[]]; discriminate|].
    intros j k cj dj bj ej ck dk bk ek _ [H'|[]]. discriminate.
Qed.
End Orderly.

(** X4. The calls of [check] in a run are numbered 0, 1, 2, ... in the order in
    which they are made, their number is what the call counter says, and no
    two of them overlap: each one has returned before the next one starts. *)
Theorem checks_never_overlap fuel w p ctx t0 o f :
  Poll fuel w p ctx t0 = (o, f) ->
  check_indices (history f) = seq 0 (calls f) /\
  forall j k cj dj bj ej ck dk bk ek,
    (j < k)%nat ->
    In (Checked j cj dj bj ej) (trace f) ->
    In (Checked k ck dk bk ek) (trace f) ->
    cj <= dj /\ dj <= ck.
Proof.
  intros HP.
  destruct (orderly_Poll w p ctx t0 0 (any_reset_gap w p) fuel o f HP)
    as (Hi & Hb & Hp).
  split; [exact Hi|].
  intros j k cj dj bj ej ck dk bk ek Hlt Hj Hk. split; [|eauto].
  apply Hb in Hj. lia.
Qed.

Lemma checks_never_overlap_witness :
  check_indices
    (history (snd (Poll 5 deadline_env (New Background 10) deadline_ctx 0)))
    = [0; 1; 2]%nat /\
  1 <= 5 /\ 5 <= 21.
Proof.
  destruct (checks_never_overlap 5 deadline_env (New Background 10)
              deadline_ctx 0 _ _ (surjective_pairing _)) as [Hi Hp].
  split; [exact Hi|].
  apply (Hp 0%nat 2%nat 1 5 false None 21 25 false None);
    [repeat constructor|vm_compute; tauto|vm_compute; tauto].
Defined.

(** X5. When no [Reset] leaves a tick behind in the ticker's channel (as on
    Go 1.23 and later, where [Reset] discards it), the poller never calls
    [check] faster than its interval allows: call number [k] starts at least
    [k] intervals after the first tick, so a run that has lasted [T] has made
    fewer than [T / interval + 1] calls. *)
Theorem checks_are_rate_limited fuel w p ctx t0 o f :
  (forall i, stale w i = false) ->
  Poll fuel w p ctx t0 = (o, f) ->
  forall k c d b e, In (Checked k c d b e) (trace f) ->
    t0 + 1 + Z.of_nat k * interval p <= c /\
    Z.of_nat k * interval p < now f - t0.
Proof.
  intros Hs HP k c d b e Hin.
  destruct (orderly_Poll w p ctx t0 (interval p) (prompt_reset_gap w p Hs)
              fuel o f HP) as (_ & Hb & _).
  apply Hb in Hin. lia.
Qed.

Lemma checks_are_rate_limited_witness :
  0 + 1 + Z.of_nat 2 * interval (New Background 10) <= 21 /\
  Z.of_nat 2 * interval (New Background 10) <
    now (snd (Poll 5 deadline_env (New Background 10) deadline_ctx 0)) - 0.
Proof.
  apply (checks_are_rate_limited 5 deadline_env (New Background 10)
           deadline_ctx 0 _ _ (fun _ => eq_refl) (surjective_pairing _)
           2%nat 21 25 false None).
  vm_compute. tauto.
Defined.

(** When resets leave ticks behind, the interval no longer bounds the rate:
    with an interval of 10 the second call starts at 9. *)
Example leftover_ticks_defeat_the_rate :
  In (Checked 1 9 13 false None)
     (trace (snd (Poll 5 hasty_env (New Background 10) deadline_ctx 0))) /\
  ~ 0 + 1 + Z.of_nat 1 * interval (New Background 10) <= 9.
Proof. split; [vm_compute; tauto|cbn; lia]. Qed.

(** ** Beyond the claims: how long [Poll] polls *)

Lemma never_fires_Err c t : fires_at c = None -> Err c t = None.
Proof. unfold Err. now intros ->. Qed.

Lemma loop_add a b w ctx g :
  fst (loop a w ctx g) = Running ->
  loop (a + b) w ctx g = loop b w ctx (snd (loop a w ctx g)).
Proof.
  revert g. induction a as [|a IH]; intros g; [reflexivity|].
  cbn [loop Nat.add].
  destruct (loop_iter w ctx g) as [g'|g'|took err g'|g'].
  - apply IH.
  - destruct (after_loop w ctx g') as [[took err] g'']. discriminate.
  - discriminate.
  - discriminate.
Qed.

(** With nothing cancelled and a positive interval, a pass ends by success
    when its call of [check] reports it, and otherwise goes on to the next
    pass. *)
Lemma uncancelled_pass w p ctx g :
  never_cancelled p ctx -> pl g = p -> 0 < interval p ->
  (reports_success (the_run w g) = true ->
   exists took f', loop_iter w ctx g = Return took None f' /\
                   calls f' = S (calls g)) /\
  (reports_success (the_run w g) = false ->
   exists g', loop_iter w ctx g = Continue g' /\
              calls g' = S (calls g) /\ pl g' = p).
Proof.
  intros [Hr Hc] Hp Hpos. unfold reports_success.
  pose proof (the_select_spec w g) as (_ & _ & Hroot).
  assert (Htick : snd (the_select w g) = CaseTick).
  { destruct (snd (the_select w g)); [|reflexivity].
    specialize (Hroot eq_refl). apply Done_fires in Hroot as (r & Hf & _).
    rewrite Hp in Hf. congruence. }
  destruct (loop_iter w ctx g) as [g'|g'|took err g'|g'] eqn:E.
  - apply loop_iter_Continue in E
      as (_ & _ & _ & _ & Hnd & Hpl & _ & _ & _ & _ & Hca & _).
    split.
    + intros Hs. apply andb_prop in Hs as [Hd Hn].
      destruct (cr_err (the_run w g)); [discriminate|].
      rewrite Hnd in Hd by reflexivity. discriminate.
    + intros _. exists g'. repeat split; congruence.
  - apply loop_iter_Break in E
      as (_ & _ & _ & _ & [(e & He & _)|(e & _ & He & _)]);
      [rewrite Hp in He|]; rewrite never_fires_Err in He by assumption;
      discriminate.
  - apply loop_iter_Return in E
      as (_ & _ & _ & _ & _ &
          [(_ & Hx & _)|(-> & _ & _ & Hd & He & _ & Hca & _)]);
      [congruence|].
    split.
    + intros _. eauto.
    + rewrite Hd, He. discriminate.
  - apply loop_iter_Panic in E as (_ & _ & _ & Hle & _). rewrite Hp in Hle. lia.
Qed.

Lemma keeps_polling w p ctx fuel : forall g,
  never_cancelled p ctx -> pl g = p -> 0 < interval p ->
  (forall k t, (calls g <= k < calls g + fuel)%nat ->
               reports_success (check w k t) = false) ->
  fst (loop fuel w ctx g) = Running /\
  calls (snd (loop fuel w ctx g)) = (calls g + fuel)%nat /\
  pl (snd (loop fuel w ctx g)) = p.
Proof.
  induction fuel as [|n IH]; intros g Hnc Hp Hpos Hno.
  - cbn. repeat split; auto.
  - destruct (uncancelled_pass w p ctx g Hnc Hp Hpos) as [_ Hgo].
    destruct Hgo as (g' & E & Hca & Hpl).
    { apply Hno. lia. }
    cbn [loop]. rewrite E.
    destruct (IH g' Hnc Hpl Hpos) as (H1 & H2 & H3).
    { intros k t Hk. apply Hno. lia. }
    repeat split; try assumption. lia.
Qed.

(** X6. When neither context ever fires and the interval is positive, [Poll]
    makes one call of [check] per pass until a call reports [(true, nil)]: if
    call number [n] is the first to do so, [Poll] is still polling after any
    number of passes up to [n], and returns a nil error in pass [n + 1], after
    exactly [n + 1] calls. *)
Theorem polls_until_success w p ctx t0 n :
  never_cancelled p ctx -> 0 < interval p ->
  (forall k t, (k < n)%nat -> reports_success (check w k t) = false) ->
  (forall t, reports_success (check w n t) = true) ->
  forall fuel,
    ((fuel <= n)%nat ->
     fst (Poll fuel w p ctx t0) = Running /\
     calls (snd (Poll fuel w p ctx t0)) = fuel) /\
    ((n < fuel)%nat ->
     exists took, fst (Poll fuel w p ctx t0) = Returned took None /\
                  calls (snd (Poll fuel w p ctx t0)) = S n).
Proof.
  intros Hnc Hpos Hno Hyes fuel.
  set (f0 := enter p t0 (mkTicker 1 (t0 + 1) false)).
  split; intros Hf.
  - destruct (keeps_polling w p ctx fuel f0 Hnc eq_refl Hpos) as (H1 & H2 & _).
    { intros k t Hk. apply Hno. cbn in Hk. lia. }
    rewrite Poll_unfold. fold f0.
    destruct (loop fuel w ctx f0) as [o g]. cbn in *. subst o.
    split; [reflexivity|exact H2].
  - destruct (keeps_polling w p ctx n f0 Hnc eq_refl Hpos) as (H1 & H2 & H3).
    { intros k t Hk. apply Hno. cbn in Hk. lia. }
    replace fuel with (n + S (fuel - S n))%nat by lia.
    rewrite Poll_unfold. fold f0. rewrite (loop_add _ _ _ _ _ H1).
    destruct (uncancelled_pass w p ctx (snd (loop n w ctx f0)) Hnc H3 Hpos)
      as [Hstop _].
    destruct Hstop as (took & f' & E & Hca).
    { unfold the_run. rewrite H2. apply Hyes. }
    cbn [loop]. rewrite E. exists took. cbn. split; [reflexivity|].
    rewrite Hca, H2. reflexivity.
Qed.

(** Success at the third call: two passes leave [Poll] polling, the third
    returns. *)
Lemma polls_until_success_witness :
  exists took,
    fst (Poll 5 (mkEnv (done_from 2 0) no_lag (fun _ => false))
           (New Background Second) Background 0) = Returned took None /\
    calls (snd (Poll 5 (mkEnv (done_from 2 0) no_lag (fun _ => false))
                  (New Background Second) Background 0)) = 3%nat.
Proof.
  apply (polls_until_success (mkEnv (done_from 2 0) no_lag (fun _ => false))
           (New Background Second) Background 0 2).
  - split; reflexivity.
  - reflexivity.
  - intros k t Hk. destruct k as [|[|k]]; [reflexivity|reflexivity|lia].
  - reflexivity.
  - lia.
Defined.

(** X7. [Poll] has no limit of its own on the number of attempts: when neither
    context ever fires, the interval is positive and no call of [check]
    reports [(true, nil)], it is still polling after any number of passes,
    having called [check] once in each. *)
Theorem polls_forever_when_nothing_ends_it w p ctx t0 :
  never_cancelled p ctx -> 0 < interval p ->
  (forall k t, reports_success (check w k t) = false) ->
  forall fuel,
    fst (Poll fuel w p ctx t0) = Running /\
    calls (snd (Poll fuel w p ctx t0)) = fuel.
Proof.
  intros Hnc Hpos Hno fuel.
  set (f0 := enter p t0 (mkTicker 1 (t0 + 1) false)).
  destruct (keeps_polling w p ctx fuel f0 Hnc eq_refl Hpos) as (H1 & H2 & _).
  { intros k t _. apply Hno. }
  rewrite Poll_unfold. fold f0.
  destruct (loop fuel w ctx f0) as [o g]. cbn in *. subst o.
  split; [reflexivity|exact H2].
Qed.

Lemma polls_forever_when_nothing_ends_it_witness :
  fst (Poll 40 failing_env (New Background Second) Background 0) = Running /\
  calls (snd (Poll 40 failing_env (New Background Second) Background 0)) = 40%nat.
Proof.
  apply (polls_forever_when_nothing_ends_it failing_env
           (New Background Second) Background 0).
  - split; reflexivity.
  - reflexivity.
  - intros k t. reflexivity.
Defined.

(** ** Beyond the claims: how late after a deadline [Poll] returns *)

Lemma quiet_instants w g :
  quiet w ->
  t_cond_root w g = now g /\ t_cond_ctx w g = now g /\ t_select w g = now g /\
  t_reset w g = t_woke w g /\ t_call w g = t_woke w g /\
  (forall q, L w g q = 0) /\
  (forall t, t_post_ctx w g t = t /\ t_post_root w g t = t).
Proof.
  intros Hq.
  assert (HL : forall q, L w g q = 0) by (intros q; unfold L; now rewrite Hq).
  unfold t_post_root, t_post_ctx, t_call, t_reset, t_select, t_cond_ctx,
    t_cond_root.
  rewrite !HL. repeat split; try lia; apply HL.
Qed.

Lemma woke_by_the_tick w g :
  t_woke w g <= Z.max (t_select w g) (tk_next (tc g)).
Proof.
  destruct (the_select_spec w g) as (-> & _). unfold fires_within.
  destruct (fires_at (rootCtx (pl g))); lia.
Qed.

Lemma Since_le t0 t : t0 <= t -> Since t0 t <= t - t0.
Proof.
  unfold Since, minDuration, maxDuration. intros H.
  assert (0 < 2 ^ 63) by (apply Z.pow_pos_nonneg; lia). lia.
Qed.

Lemma not_fired_yet c D t : fires_at c = Some D -> Err c t = None -> t < D.
Proof.
  intros HD He. destruct (Z.lt_ge_cases t D) as [|Hge]; [assumption|].
  assert (Hd : Done c t = true) by (apply Done_fires; eauto).
  unfold Done in Hd. rewrite He in Hd. discriminate.
Qed.

(** X8. Without scheduling delays, with a positive interval and calls of [check]
    that take at most [M], a call of [Poll] whose operation context fires at
    [D] returns, and returns less than one interval plus [M] after [D],
    whatever the predicate answers and whatever the root context does. *)
Theorem returns_soon_after_the_deadline w p ctx t0 D M :
  quiet w -> fires_at ctx = Some D -> t0 <= D -> 0 < interval p ->
  (forall k t, Z.of_N (cr_dur (check w k t)) <= M) ->
  (exists fuel took err f, Poll fuel w p ctx t0 = (Returned took err, f)) /\
  (forall fuel took err f,
     Poll fuel w p ctx t0 = (Returned took err, f) ->
     now f < D + interval p + M /\ took < D - t0 + interval p + M).
Proof.
  intros Hq HD Ht0 Hpos HM.
  assert (HM0 : 0 <= M) by (specialize (HM 0%nat 0); lia).
  set (f0 := enter p t0 (mkTicker 1 (t0 + 1) false)).
  split.
  - destruct (loop_terminates w ctx D (Z.to_nat (D - t0)) f0)
      as (took & err & f & Hl).
    + exact Hpos.
    + intros t Ht. right. apply Done_fires. eauto.
    + right. cbn. lia.
    + exists (S (S (Z.to_nat (D - t0)))), took, err, (with_tc (Stop (tc f)) f).
      rewrite Poll_unfold. fold f0. rewrite Hl. reflexivity.
  - intros fuel took err f HP.
    destruct (elapsed_facts _ _ _ _ _ _ _ HP) as (Hge & Htook & _).
    destruct (Htook took err eq_refl) as (Hk & _ & _).
    pose proof (Since_le t0 (now f) Hge) as Hs.
    cut (now f < D + interval p + M); [lia|].
    apply Poll_loop in HP as (Ho & _ & _ & -> & _ & _). fold f0 in Ho |- *.
    clear Hs Hge Htook Hk. revert took err Ho.
    apply (loop_rule w ctx
             (fun g => pl g = p /\ now g < D + interval p + M /\
                       tk_next (tc g) <= now g + interval p)
             (fun o g => forall took err, o = Returned took err ->
                                          now g < D + interval p + M)).
    + intros g g' (Hp & Hn & Htk) E.
      destruct (quiet_instants w g Hq) as (H1 & H2 & H3 & H4 & H5 & HL & _).
      pose proof (woke_by_the_tick w g) as Hw.
      pose proof (instants_mono w g) as Hm.
      apply loop_iter_Continue in E
        as (_ & Hc & _ & Hposg & _ & Hpl & _ & Hn' & Htk' & _).
      pose proof (proj1 (proj2 (next_tick_later w g Hposg))) as Hnext.
      apply (not_fired_yet _ D) in Hc; [|assumption].
      specialize (HM (calls g) (t_call w g)). fold (the_run w g) in HM.
      unfold t_ret in *. rewrite Hp in *.
      split; [congruence|]. split; lia.
    + discriminate.
    + intros g g' (Hp & Hn & _) E took err _.
      destruct (quiet_instants w g Hq) as (H1 & H2 & _).
      destruct (quiet_instants w g' Hq) as (_ & _ & _ & _ & _ & HL & Hpost).
      destruct (after_loop_spec w ctx g') as (_ & _ & _ & _ & Hn' & _).
      rewrite Hn', HL, (proj2 (Hpost (now g'))).
      apply loop_iter_Break in E
        as (_ & _ & _ & _ & [(e & _ & -> & _)|(e & _ & _ & -> & _)]); lia.
    + intros g took err g' (Hp & Hn & Htk) E took' err' _.
      destruct (quiet_instants w g Hq) as (H1 & H2 & H3 & H4 & H5 & HL & _).
      pose proof (woke_by_the_tick w g) as Hw.
      pose proof (instants_mono w g) as Hm.
      apply loop_iter_Return in E
        as (_ & Hc & _ & _ & _ &
            [(_ & _ & Hn' & _)|(_ & _ & _ & _ & _ & Hn' & _)]);
        apply (not_fired_yet _ D) in Hc; try assumption;
        specialize (HM (calls g) (t_call w g)); fold (the_run w g) in HM;
        unfold t_ret in *; rewrite Hn', HL; lia.
    + discriminate.
    + cbn. repeat split; lia.
Qed.

(** A deadline at 25, an interval of 10, calls that take 4: back at 25. *)
Lemma returns_soon_after_the_deadline_witness :
  now (snd (Poll 5 deadline_env (New Background 10) deadline_ctx 0))
    < 25 + interval (New Background 10) + 4 /\
  25 < 25 - 0 + interval (New Background 10) + 4.
Proof.
  destruct (returns_soon_after_the_deadline deadline_env (New Background 10)
              deadline_ctx 0 25 4) as [_ H].
  - intros q i. reflexivity.
  - reflexivity.
  - discriminate.
  - reflexivity.
  - intros k t. discriminate.
  - apply (H 5%nat 25 (Some DeadlineExceeded)
             (snd (Poll 5 deadline_env (New Background 10) deadline_ctx 0))).
    vm_compute. reflexivity.
Defined.

(** ** Beyond the claims: the log *)

Lemma count_of_app f a b : count_of f (a ++ b) = (count_of f a + count_of f b)%nat.
Proof. unfold count_of. now rewrite filter_app, length_app. Qed.

Lemma plain_woke_events w g c e : In e (woke_events w g c) -> plain e = true.
Proof.
  unfold woke_events. cbn. intros [<-|[<-|[<-|[<-|[]]]]]; reflexivity.
Qed.

Lemma plain_checked_events w g e : In e (checked_events w g) -> plain e = true.
Proof.
  unfold checked_events. intros [<-|[<-|H]]; try reflexivity.
  now apply plain_woke_events in H.
Qed.

Lemma counts_woke_events w g c :
  count_of is_warning (woke_events w g c) = 0%nat /\
  count_of is_failure (woke_events w g c) = 0%nat.
Proof. split; reflexivity. Qed.

(** A loop left on its condition never yields a nil error. *)
Lemma after_break_err w ctx f f' :
  loop_iter w ctx f = Break f' -> snd (fst (after_loop w ctx f')) <> None.
Proof.
  intros E.
  destruct (after_loop_spec w ctx f') as (He & _).
  rewrite He. clear He.
  assert (Hle : now f' <= t_post_ctx w f' (now f') /\
                t_post_ctx w f' (now f') <= t_post_root w f' (now f'))
    by (unfold_instants; lia).
  apply loop_iter_Break in E as (Hpl & _ & _ & _ & HB).
  destruct (Done (rootCtx (pl f')) (t_post_root w f' (now f'))) eqn:Hd;
    [discriminate|].
  destruct HB as [(e & Hr & Hn & _)|(e & _ & Hc & Hn & _)].
  - rewrite <- Hn, <- Hpl in Hr.
    assert (Hd' : Done (rootCtx (pl f')) (now f') = true)
      by (unfold Done; rewrite Hr; reflexivity).
    apply (Done_mono _ _ (t_post_root w f' (now f'))) in Hd'; [|lia].
    congruence.
  - rewrite <- Hn in Hc.
    rewrite (Err_mono _ _ (t_post_ctx w f' (now f')) _ Hc) by lia.
    discriminate.
Qed.

(** X9. What [Poll] writes to the log: first of all, once, the start entry with
    the poller's interval; one warning for each call of [check] that returned
    an error, and no other warning; and the confirmation entry exactly when it
    returns a nil error, carrying the very duration it returns. *)
Theorem log_tells_the_run fuel w p ctx t0 o f :
  Poll fuel w p ctx t0 = (o, f) ->
  (exists rest,
     history f = Logged (LogStart (interval p)) :: rest /\
     forall d, ~ In (Logged (LogStart d)) rest) /\
  (forall took,
     In (Logged (LogConfirmed took)) (trace f) <-> o = Returned took None) /\
  count_of is_warning (trace f) = count_of is_failure (trace f).
Proof.
  intros HP. apply Poll_loop in HP as (Ho & Ht & _).
  unfold history. rewrite Ht, <- Ho. clear.
  set (S0 := Logged (LogStart (interval p))).
  cut (exists l,
         trace (snd (loop fuel w ctx (enter p t0 (mkTicker 1 (t0 + 1) false))))
           = l ++ [S0] /\
         (forall e, In e l -> forall d, e <> Logged (LogStart d)) /\
         (forall took,
            In (Logged (LogConfirmed took)) l <->
            fst (loop fuel w ctx (enter p t0 (mkTicker 1 (t0 + 1) false)))
              = Returned took None) /\
         count_of is_warning (l ++ [S0]) = count_of is_failure (l ++ [S0])).
  { intros (l & Htr & Hs & Hc & Hn). rewrite Htr. split; [|split].
    - exists (rev l). rewrite rev_app_distr. split; [reflexivity|].
      intros d Hin. apply in_rev in Hin. exact (Hs _ Hin d eq_refl).
    - intros took. rewrite <- Hc. split.
      + intros Hin. apply in_app_or in Hin as [Hin|[Hin|[]]];
          [exact Hin|discriminate].
      + intros Hin. apply in_or_app. now left.
    - exact Hn. }
  apply (loop_rule w ctx
           (fun g => exists l, trace g = l ++ [S0] /\
                       (forall e, In e l -> plain e = true) /\
                       count_of is_warning (trace g) = count_of is_failure (trace g))
           (fun o g => exists l, trace g = l ++ [S0] /\
                       (forall e, In e l -> forall d, e <> Logged (LogStart d)) /\
                       (forall took, In (Logged (LogConfirmed took)) l <->
                                     o = Returned took None) /\
                       count_of is_warning (l ++ [S0])
                         = count_of is_failure (l ++ [S0]))).
  - intros g g' (l & Htr & Hpl & Hn) E.
    apply loop_iter_Continue in E
      as (_ & _ & _ & _ & _ & _ & _ & _ & _ & _ & _ & Htr').
    exists ((match cr_err (the_run w g) with
             | Some e => [Logged (LogCheckFailed e)]
             | None => []
             end ++ checked_events w g) ++ l).
    split; [rewrite Htr', Htr, !app_assoc; reflexivity|]. split.
    + intros e Hin. apply in_app_or in Hin as [Hin|Hin]; [|auto].
      apply in_app_or in Hin as [Hin|Hin];
        [|now apply plain_checked_events in Hin].
      destruct (cr_err (the_run w g)); [|contradiction].
      destruct Hin as [<-|[]]. reflexivity.
    + rewrite Htr', !count_of_app, Hn.
      unfold checked_events, woke_events.
      destruct (cr_err (the_run w g)); reflexivity.
  - intros g (l & Htr & Hpl & Hn). exists l. rewrite <- Htr.
    split; [reflexivity|]. split; [|split; [|exact Hn]].
    + intros e Hin d ->. apply Hpl in Hin. discriminate.
    + intros took. split; [|discriminate].
      intros Hin. apply Hpl in Hin. discriminate.
  - intros g g' (l & Htr & Hpl & Hn) E.
    pose proof (after_break_err w ctx g g' E) as Herr.
    destruct (after_loop_spec w ctx g') as (_ & _ & _ & _ & _ & _ & Htr').
    apply loop_iter_Break in E
      as (_ & _ & _ & _ & [(e & _ & _ & Htg)|(e & _ & _ & _ & Htg)]);
      rewrite Htg, Htr in Htr';
      match type of Htr' with
      | _ = ?a :: ?b :: ?c :: ?d :: l ++ _ => exists (a :: b :: c :: d :: l)
      | _ = ?a :: ?b :: ?c :: l ++ _ => exists (a :: b :: c :: l)
      end;
      (split; [exact Htr'|]); (split; [|split]);
      try (intros x Hin d ->; cbn in Hin;
           repeat (destruct Hin as [Hin|Hin]; [discriminate|]);
           apply Hpl in Hin; discriminate);
      try (intros took; split;
           [intros Hin; cbn in Hin;
            repeat (destruct Hin as [Hin|Hin]; [discriminate|]);
            apply Hpl in Hin; discriminate
           |intros Heq; congruence]);
      rewrite Htr in Hn; cbn [app] in *; unfold count_of in *; cbn; exact Hn.
  - intros g took err g' (l & Htr & Hpl & Hn) E.
    apply loop_iter_Return in E
      as (_ & _ & _ & _ & _ &
          [(-> & _ & _ & _ & Htr')|(-> & _ & _ & _ & He & _ & _ & Htr')]).
    + exists (woke_events w g CaseRootDone ++ l).
      split; [rewrite Htr', Htr, app_assoc; reflexivity|]. split; [|split].
      * intros e Hin d ->. apply in_app_or in Hin as [Hin|Hin];
          [apply plain_woke_events in Hin|apply Hpl in Hin]; discriminate.
      * intros took'. split; [|discriminate].
        intros Hin. apply in_app_or in Hin as [Hin|Hin];
          [apply plain_woke_events in Hin|apply Hpl in Hin]; discriminate.
      * rewrite <- app_assoc, <- Htr, !count_of_app, Hn. reflexivity.
    + exists (Logged (LogConfirmed took) :: checked_events w g ++ l).
      split; [rewrite Htr', Htr, app_comm_cons, app_assoc; reflexivity|].
      split; [|split].
      * intros e Hin d ->. destruct Hin as [Hin|Hin]; [discriminate|].
        apply in_app_or in Hin as [Hin|Hin];
          [apply plain_checked_events in Hin|apply Hpl in Hin]; discriminate.
      * intros took'. split.
        -- intros [Hin|Hin]; [congruence|].
           apply in_app_or in Hin as [Hin|Hin];
             [apply plain_checked_events in Hin|apply Hpl in Hin]; discriminate.
        -- intros Heq. injection Heq as ->. now left.
      * change (Logged (LogConfirmed took) :: checked_events w g ++ l)
          with ([Logged (LogConfirmed took)] ++ checked_events w g ++ l).
        rewrite <- !app_assoc, <- Htr, !count_of_app, Hn.
        unfold checked_events, woke_events. rewrite He. reflexivity.
  - intros g g' (l & Htr & Hpl & Hn) E.
    apply loop_iter_Panic in E as (_ & _ & _ & _ & _ & _ & Htr').
    exists (woke_events w g CaseTick ++ l).
    split; [rewrite Htr', Htr, app_assoc; reflexivity|]. split; [|split].
    + intros e Hin d ->. apply in_app_or in Hin as [Hin|Hin];
        [apply plain_woke_events in Hin|apply Hpl in Hin]; discriminate.
    + intros took'. split; [|discriminate].
      intros Hin. apply in_app_or in Hin as [Hin|Hin];
        [apply plain_woke_events in Hin|apply Hpl in Hin]; discriminate.
    + rewrite <- app_assoc, <- Htr, !count_of_app, Hn. reflexivity.
  - exists []. split; [reflexivity|]. split; [intros e []|reflexivity].
Qed.

(** The run of [failing_env]: four failed calls, four warnings. *)
Lemma log_tells_the_run_witness :
  count_of is_warning
    (trace (snd (Poll 5 failing_env (New Background 10) deadline_ctx 0))) = 4%nat /\
  count_of is_warning
    (trace (snd (Poll 5 failing_env (New Background 10) deadline_ctx 0))) =
  count_of is_failure
    (trace (snd (Poll 5 failing_env (New Background 10) deadline_ctx 0))).
Proof.
  split; [vm_compute; reflexivity|].
  exact (proj2 (proj2 (log_tells_the_run 5 failing_env (New Background 10)
                         deadline_ctx 0 _ _ (surjective_pairing _)))).
Defined.

(** ** Beyond the claims: the ticker, and a [select] with two ready cases *)

Lemma loop_iter_stopped w ctx f :
  tk_stopped (tc (frame_of (loop_iter w ctx f))) = tk_stopped (tc f).
Proof.
  destruct f as [p s n [per nxt st] i k tr]. run_iter.
  repeat break_match; reflexivity.
Qed.

Lemma after_loop_tc w ctx f : tc (snd (after_loop w ctx f)) = tc f.
Proof. destruct f as [p s n tk i k tr]. reflexivity. Qed.

(** X10. The ticker a call of [Poll] creates runs as long as the loop does and is
    stopped when the call ends, by a return on any path or by the panic. *)
Theorem ticker_is_stopped_on_exit fuel w p ctx t0 o f :
  Poll fuel w p ctx t0 = (o, f) ->
  tk_stopped (tc f) = match o with Running => false | _ => true end.
Proof.
  rewrite Poll_unfold. intros HP.
  assert (Hl : tk_stopped
                 (tc (snd (loop fuel w ctx
                             (enter p t0 (mkTicker 1 (t0 + 1) false))))) = false).
  { apply (loop_rule w ctx (fun g => tk_stopped (tc g) = false)
             (fun _ g => tk_stopped (tc g) = false)); auto.
    - intros g g' Hg E. pose proof (loop_iter_stopped w ctx g) as H.
      rewrite E in H. cbn [frame_of] in H. congruence.
    - intros g g' Hg E. pose proof (loop_iter_stopped w ctx g) as H.
      rewrite E in H. cbn [frame_of] in H. rewrite after_loop_tc. congruence.
    - intros g took err g' Hg E. pose proof (loop_iter_stopped w ctx g) as H.
      rewrite E in H. cbn [frame_of] in H. congruence.
    - intros g g' Hg E. pose proof (loop_iter_stopped w ctx g) as H.
      rewrite E in H. cbn [frame_of] in H. congruence. }
  destruct (loop fuel w ctx (enter p t0 (mkTicker 1 (t0 + 1) false)))
    as [o' g]. unfold run_deferred in HP. cbn [fst snd] in *.
  destruct o'; injection HP as <- <-; [reflexivity|reflexivity|exact Hl].
Qed.

Lemma ticker_is_stopped_on_exit_witness :
  tk_stopped (tc (snd (Poll 3 deadline_env (New Background 0) Background 0)))
    = true /\
  tk_stopped (tc (snd (Poll 2 idle_env (New Background 10) Background 0)))
    = false.
Proof.
  split.
  - apply (ticker_is_stopped_on_exit 3 deadline_env (New Background 0)
             Background 0 Panicked).
    vm_compute. reflexivity.
  - apply (ticker_is_stopped_on_exit 2 idle_env (New Background 10)
             Background 0 Running).
    vm_compute. reflexivity.
Defined.

(** X11. When the root context fires after the loop condition has read it and the
    tick is already there at the [select], both cases are ready and the
    runtime's choice decides the pass: the root case returns [ErrAborted]
    without a call of [check]; the tick case calls [check] although the root
    context has fired. *)
Theorem select_with_both_cases_ready w ctx f r :
  fires_at (rootCtx (pl f)) = Some r ->
  t_cond_root w f < r <= t_select w f ->
  Err ctx (t_cond_ctx w f) = None ->
  tk_next (tc f) <= t_select w f ->
  0 < interval (pl f) ->
  if coin w (iter f)
  then exists took f',
         loop_iter w ctx f = Return took (Some ErrAborted) f' /\
         calls f' = calls f
  else calls (frame_of (loop_iter w ctx f)) = S (calls f) /\
       r <= t_call w f /\
       In (Checked (calls f) (t_call w f) (t_ret w f)
             (cr_done (the_run w f)) (cr_err (the_run w f)))
          (trace (frame_of (loop_iter w ctx f))).
Proof.
  intros Hr [Hlt Hle] Hctx Htick Hpos.
  assert (Hroot : Err (rootCtx (pl f)) (t_cond_root w f) = None)
    by (apply (not_fired_before _ r); assumption).
  assert (Hsel : the_select w f =
                 (t_select w f, if coin w (iter f) then CaseRootDone else CaseTick)).
  { unfold the_select, select, tick_ready.
    assert (Hd : Done (rootCtx (pl f)) (t_select w f) = true)
      by (apply Done_fires; eauto).
    rewrite Hd. apply Z.leb_le in Htick. rewrite Htick. reflexivity. }
  pose proof (instants_mono w f) as Hm.
  assert (Hw : t_woke w f = t_select w f) by (unfold t_woke; now rewrite Hsel).
  destruct (coin w (iter f));
    destruct (loop_iter w ctx f) as [f'|f'|took err f'|f'] eqn:E;
    cbn [frame_of].
  - apply loop_iter_Continue in E as (_ & _ & Hc & _). rewrite Hsel in Hc.
    discriminate.
  - apply loop_iter_Break in E
      as (_ & _ & _ & _ & [(e & He & _)|(e & _ & He & _)]); congruence.
  - apply loop_iter_Return in E
      as (_ & _ & _ & _ & _ & [(-> & _ & _ & Hc & _)|(_ & Hc & _)]).
    + eauto.
    + rewrite Hsel in Hc. discriminate.
  - apply loop_iter_Panic in E as (_ & _ & Hc & _). rewrite Hsel in Hc.
    discriminate.
  - apply loop_iter_Continue in E
      as (_ & _ & _ & _ & _ & _ & _ & _ & _ & _ & Hc & ->).
    split; [exact Hc|]. split; [lia|]. apply in_or_app. right. now left.
  - apply loop_iter_Break in E
      as (_ & _ & _ & _ & [(e & He & _)|(e & _ & He & _)]); congruence.
  - apply loop_iter_Return in E
      as (_ & _ & _ & _ & _ &
          [(_ & Hc & _)|(_ & _ & _ & _ & _ & _ & Hc & ->)]).
    + rewrite Hsel in Hc. discriminate.
    + split; [exact Hc|]. split; [lia|]. right. now left.
  - apply loop_iter_Panic in E as (_ & _ & _ & Hle' & _). lia.
Qed.

(** The second pass is held up for 12ns before its [select], the root context
    fires at 5 in the meantime and the tick was due at 11: the tick case is
    picked and [check] is called at 13. *)
Lemma select_with_both_cases_ready_witness :
  calls (frame_of (loop_iter held_env deadline_ctx
                     (second_pass (New (mkContext (Some 5) Canceled) 10))))
    = 2%nat /\
  5 <= t_call held_env (second_pass (New (mkContext (Some 5) Canceled) 10)) /\
  t_call held_env (second_pass (New (mkContext (Some 5) Canceled) 10)) = 13.
Proof.
  pose proof (select_with_both_cases_ready held_env deadline_ctx
                (second_pass (New (mkContext (Some 5) Canceled) 10)) 5
                eq_refl) as H.
  cbv beta iota delta [coin held_env] in H.
  destruct H as (H1 & H2 & _);
    [split; [reflexivity|discriminate]|reflexivity|discriminate|reflexivity|].
  split; [exact H1|]. split; [exact H2|reflexivity].
Defined.

(** ** Beyond the claims: what a nil error means *)

(** X12. [Poll] returns a nil error only after a call of [check] that returned
    [(true, nil)]; that call is the last one made, and the only one in the run
    to have reported success. *)
Theorem nil_error_means_last_call_succeeded fuel w p ctx t0 took f :
  Poll fuel w p ctx t0 = (Returned took None, f) ->
  exists k c d,
    S k = calls f /\
    In (Checked k c d true None) (trace f) /\
    forall e, In e (trace f) -> succeeded e = true -> e = Checked k c d true None.
Proof.
  intros HP. apply Poll_loop in HP as (Ho & Ht & _ & _ & Hc & _).
  rewrite Ht, Hc. revert took Ho. clear.
  apply (loop_rule w ctx (fun g => no_success (trace g))
           (fun o g => forall took, o = Returned took None ->
              exists k c d,
                S k = calls g /\
                In (Checked k c d true None) (trace g) /\
                forall e, In e (trace g) -> succeeded e = true ->
                          e = Checked k c d true None)).
  - intros g g' Hg E. eapply no_success_Continue; eauto.
  - discriminate.
  - intros g g' _ E took Ho. exfalso.
    apply (after_break_err w ctx g g' E). congruence.
  - intros g took err g' Hg E took' Ho. injection Ho as -> ->.
    apply loop_iter_Return in E
      as (_ & _ & _ & _ & _ &
          [(Hx & _)|(_ & _ & _ & Hd & He & _ & Hca & Htr)]); [discriminate|].
    exists (calls g), (t_call w g), (t_ret w g).
    split; [congruence|]. rewrite Htr.
    unfold checked_events. rewrite Hd, He. split; [right; now left|].
    intros e [<-|[<-|[<-|Hin]]] Hs; try discriminate; try reflexivity.
    apply in_app_or in Hin as [Hin|Hin].
    + apply no_success_woke in Hin. congruence.
    + apply Hg in Hin. congruence.
  - discriminate.
  - intros e [<-|[]]. reflexivity.
Qed.

Lemma nil_error_means_last_call_succeeded_witness :
  exists k c d,
    S k = calls (snd (Poll 3 late_env late_poller late_ctx 0)) /\
    In (Checked k c d true None)
       (trace (snd (Poll 3 late_env late_poller late_ctx 0))) /\
    forall e, In e (trace (snd (Poll 3 late_env late_poller late_ctx 0))) ->
              succeeded e = true -> e = Checked k c d true None.
Proof.
  apply (nil_error_means_last_call_succeeded 3 late_env late_poller late_ctx 0 9).
  vm_compute. reflexivity.
Defined.

(** ** Beyond the claims: the predicate's error values are never looked at *)

Lemma loop_iter_same w w' ctx f f' :
  same_but_errors w w' -> same_state f f' ->
  same_flow (loop_iter w ctx f) (loop_iter w' ctx f').
Proof.
  intros (Hlag & Hcoin & Hstale & Hchk) Hs.
  destruct f as [p s n tk i k tr], f' as [p' s' n' tk' i' k' tr'].
  unfold same_state in Hs. cbn in Hs.
  destruct Hs as (<- & <- & <- & <- & <- & <-).
  run_iter. rewrite <- !Hlag, <- !Hcoin, <- !Hstale.
  destruct (Err (rootCtx p) (n + Z.of_N (lag w AtCondRoot i)));
    [cbn; repeat split|].
  destruct (Err ctx (n + Z.of_N (lag w AtCondRoot i)
                     + Z.of_N (lag w AtCondCtx i)));
    [cbn; repeat split|].
  destruct (select (rootCtx p) tk (coin w i)
              (n + Z.of_N (lag w AtCondRoot i) + Z.of_N (lag w AtCondCtx i)
               + Z.of_N (lag w AtSelect i))) as [t c].
  destruct c; [cbn; repeat split|].
  destruct (interval p <=? 0); [cbn; repeat split|].
  specialize (Hchk k (t + Z.of_N (lag w AtReset i) + Z.of_N (lag w AtCheck i))).
  destruct (check w k (t + Z.of_N (lag w AtReset i) + Z.of_N (lag w AtCheck i)))
    as [d e dur].
  destruct (check w' k (t + Z.of_N (lag w AtReset i) + Z.of_N (lag w AtCheck i)))
    as [d' e' dur'].
  cbn in Hchk. destruct Hchk as (<- & <- & Hnil).
  cbn [cr_done cr_err cr_dur].
  destruct e, e'; try discriminate; [cbn; repeat split|].
  destruct d; cbn; repeat split.
Qed.

Lemma after_loop_same w w' ctx f f' :
  same_but_errors w w' -> same_state f f' ->
  fst (after_loop w ctx f) = fst (after_loop w' ctx f') /\
  same_state (snd (after_loop w ctx f)) (snd (after_loop w' ctx f')).
Proof.
  intros (Hlag & _) Hs.
  destruct f as [p s n tk i k tr], f' as [p' s' n' tk' i' k' tr'].
  unfold same_state in Hs. cbn in Hs.
  destruct Hs as (<- & <- & <- & <- & <- & <-).
  run_iter. rewrite <- !Hlag. repeat split.
Qed.

Lemma loop_same w w' ctx fuel : forall f f',
  same_but_errors w w' -> same_state f f' ->
  fst (loop fuel w ctx f) = fst (loop fuel w' ctx f') /\
  same_state (snd (loop fuel w ctx f)) (snd (loop fuel w' ctx f')).
Proof.
  induction fuel as [|n IH]; intros f f' Hw Hs; [split; [reflexivity|exact Hs]|].
  pose proof (loop_iter_same w w' ctx f f' Hw Hs) as H.
  cbn [loop].
  destruct (loop_iter w ctx f) as [g|g|took err g|g];
    destruct (loop_iter w' ctx f') as [g'|g'|took' err' g'|g'];
    try contradiction; cbn [same_flow] in H.
  - apply IH; assumption.
  - destruct (after_loop_same w w' ctx g g' Hw H) as [H1 H2].
    destruct (after_loop w ctx g) as [[a b] c].
    destruct (after_loop w' ctx g') as [[a' b'] c'].
    cbn [fst snd] in *. injection H1 as <- <-. split; [reflexivity|exact H2].
  - destruct H as (<- & <- & H). split; [reflexivity|exact H].
  - split; [reflexivity|exact H].
Qed.

(** X13. [Poll] never looks at the error a call of [check] returns beyond testing
    it against nil: with the same timing and the same answers otherwise, two
    runs whose predicates fail with different errors end the same way, with
    the same result, the same elapsed time and the same number of calls. *)
Theorem check_error_values_do_not_matter fuel w w' p ctx t0 :
  same_but_errors w w' ->
  fst (Poll fuel w p ctx t0) = fst (Poll fuel w' p ctx t0) /\
  now (snd (Poll fuel w p ctx t0)) = now (snd (Poll fuel w' p ctx t0)) /\
  calls (snd (Poll fuel w p ctx t0)) = calls (snd (Poll fuel w' p ctx t0)).
Proof.
  intros Hw. rewrite !Poll_unfold.
  destruct (loop_same w w' ctx fuel
              (enter p t0 (mkTicker 1 (t0 + 1) false))
              (enter p t0 (mkTicker 1 (t0 + 1) false)) Hw)
    as [H1 (_ & _ & H2 & _ & _ & H3)]; [repeat split|].
  rewrite !run_deferred_fst, !run_deferred_now.
  split; [exact H1|]. split; [exact H2|].
  destruct (loop fuel w ctx (enter p t0 (mkTicker 1 (t0 + 1) false))) as [o g].
  destruct (loop fuel w' ctx (enter p t0 (mkTicker 1 (t0 + 1) false))) as [o' g'].
  cbn [fst snd] in *. subst o'. destruct o; exact H3.
Qed.

(** A predicate that fails with [Canceled] and one that fails with another
    error: both runs end on the deadline, after 31ns. *)
Lemma check_error_values_do_not_matter_witness :
  fst (Poll 5 failing_env (New Background 10) deadline_ctx 0) =
  fst (Poll 5 (mkEnv (always false (Some Canceled) 0) no_lag (fun _ => false))
         (New Background 10) deadline_ctx 0).
Proof.
  apply (check_error_values_do_not_matter 5 failing_env
           (mkEnv (always false (Some Canceled) 0) no_lag (fun _ => false))
           (New Background 10) deadline_ctx 0).
  repeat split.
Defined.

End poll.
